(** * blocking_queue: a mutex + condition-variable monitor over std::queue

    The development embeds [blocking_queue<T>] (blocking_queue.h) as an
    executable interleaving machine.  Every statement of the four member
    functions is one atomic step of the calling thread; a schedule is a list
    of actions, and [run] replays a schedule and collects the observable
    events.  The std library objects the class is built from are modelled by
    their documented behaviour:

    - [std::queue<T>]            a list, head = front, tail = back;
    - [std::mutex]               the identifier of the owning thread, if any;
    - [std::condition_variable]  the set of threads suspended in [wait];
      [notify_one] removes one of them, and a suspended thread may also be
      removed without any notification (spurious wake-up);
    - [cv.wait(lock, pred)]      [while (!pred()) cv.wait(lock);].

    The destructor of the lock object and the return to the caller form the
    last step of every call.  [std::move] out of [m_queue.front()] is a read
    of the head: the moved-from slot is discarded by the [m_queue.pop()] that
    follows under the same lock.

    Allocation failure in [m_queue.push] is outside the model: the buffer is
    unbounded, so the element count is a [nat]. *)

From stdpp Require Import base tactics option list sets gmap functions.

Set Default Proof Using "Type".

(** ** std::queue<T> *)

Module StdQueue.
Section std_queue.
Context {T : Type}.

(** [std::queue<T>::empty] *)
Definition empty (q : list T) : bool :=
  match q with [] => true | _ :: _ => false end.

(** [std::queue<T>::size] *)
Definition size (q : list T) : nat := length q.

(** [std::queue<T>::push]: push_back on the underlying deque. *)
Definition push (x : T) (q : list T) : list T := q ++ [x].

(** [std::queue<T>::front]; calling it on an empty queue is undefined
    behaviour, rendered as [None]. *)
Definition front (q : list T) : option T :=
  match q with [] => None | x :: _ => Some x end.

(** [std::queue<T>::pop]: pop_front on the underlying deque; undefined on
    an empty queue, rendered as [None]. *)
Definition pop (q : list T) : option (list T) :=
  match q with [] => None | _ :: q' => Some q' end.
End std_queue.
End StdQueue.

(** ** The monitor *)

Definition tid := nat.

Section blocking_queue.
Context {T : Type}.

(** The four public member functions, with their arguments. *)
Inductive method : Type :=
| m_push (elem : T)
| m_pop
| m_empty
| m_size.

(** What a call hands back to its caller. *)
Inductive value : Type :=
| v_void
| v_elem (elem : T)
| v_bool (b : bool)
| v_size (n : nat).

(** Control points of a thread.  Each constructor names the statement the
    thread executes next, together with its live locals. *)
Inductive pc : Type :=
| Idle                        (* not inside a member function *)
(* push(elem) *)
| PushLock (elem : T)         (* std::lock_guard lock(m_mutex); *)
| PushBody (elem : T)         (* m_queue.push(elem); *)
| PushNotify                  (* m_cv.notify_one(); *)
| PushUnlock                  (* ~lock_guard, return *)
(* pop() *)
| PopLock                     (* std::unique_lock lock(m_mutex); *)
| PopCheck                    (* wait: evaluate !m_queue.empty() *)
| PopWait                     (* wait: suspended, then re-lock *)
| PopFront                    (* T elem = std::move(m_queue.front()); *)
| PopPop (elem : T)           (* m_queue.pop(); *)
| PopUnlock (elem : T)        (* ~unique_lock, return elem *)
(* empty() *)
| EmptyLock                   (* std::lock_guard lock(m_mutex); *)
| EmptyBody                   (* evaluate m_queue.empty() *)
| EmptyUnlock (b : bool)      (* ~lock_guard, return b *)
(* size() *)
| SizeLock                    (* std::lock_guard lock(m_mutex); *)
| SizeBody                    (* evaluate m_queue.size() *)
| SizeUnlock (n : nat)        (* ~lock_guard, return n *)
(* front() or pop() of std::queue executed on an empty buffer *)
| Undefined.

(** [m_queue], [m_mutex] and [m_cv] are the data members of the class;
    [threads] gives the control point of every thread that may use the
    object. *)
Record state : Type := State {
  m_queue : list T;
  m_mutex : option tid;
  m_cv : gset tid;
  threads : tid → pc;
}.

(** [blocking_queue() = default]: empty buffer, free mutex, nobody waiting;
    no thread is inside a call. *)
Definition construct : state :=
  {| m_queue := []; m_mutex := None; m_cv := ∅; threads := λ _, Idle |}.

(** Updates of one component of the state. *)
Definition goto (t : tid) (p : pc) (s : state) : state :=
  {| m_queue := m_queue s; m_mutex := m_mutex s; m_cv := m_cv s;
     threads := <[t := p]> (threads s) |}.

Definition with_queue (q : list T) (s : state) : state :=
  {| m_queue := q; m_mutex := m_mutex s; m_cv := m_cv s;
     threads := threads s |}.

Definition with_mutex (o : option tid) (s : state) : state :=
  {| m_queue := m_queue s; m_mutex := o; m_cv := m_cv s;
     threads := threads s |}.

Definition with_cv (c : gset tid) (s : state) : state :=
  {| m_queue := m_queue s; m_mutex := m_mutex s; m_cv := c;
     threads := threads s |}.

(** Observable events. *)
Inductive event : Type :=
| EvInsert (t : tid) (elem : T)   (* m_queue.push(elem) executed by t *)
| EvRemove (t : tid) (elem : T)   (* m_queue.pop() executed by t, whose
                                     local [elem] was read from the front *)
| EvReturn (t : tid) (v : value). (* a call of t returned v *)

(** Acquire the mutex ([lock_guard]/[unique_lock] constructor, or the
    re-lock at the end of [wait]): possible only while the mutex is free. *)
Definition acquire (t : tid) (next : pc) (s : state)
  : option (state * list event) :=
  match m_mutex s with
  | None => Some (goto t next (with_mutex (Some t) s), [])
  | Some _ => None
  end.

(** Release the mutex and return [v] to the caller. *)
Definition release (t : tid) (v : value) (s : state)
  : option (state * list event) :=
  Some (goto t Idle (with_mutex None s), [EvReturn t v]).

(** One statement of thread [t].  [None] means that [t] cannot move: it is
    idle, it needs the mutex and the mutex is taken, it is suspended on the
    condition variable, or its [notify_one] has to pick a waiter (action
    [Notify] below). *)
Definition step (t : tid) (s : state) : option (state * list event) :=
  match threads s t with
  | Idle => None
  | PushLock elem => acquire t (PushBody elem) s
  | PushBody elem =>
      Some (goto t PushNotify (with_queue (StdQueue.push elem (m_queue s)) s),
            [EvInsert t elem])
  | PushNotify =>
      if decide (m_cv s = ∅) then Some (goto t PushUnlock s, []) else None
  | PushUnlock => release t v_void s
  | PopLock => acquire t PopCheck s
  | PopCheck =>
      if StdQueue.empty (m_queue s)
      then Some (goto t PopWait
                   (with_cv ({[t]} ∪ m_cv s) (with_mutex None s)), [])
      else Some (goto t PopFront s, [])
  | PopWait =>
      if decide (t ∈ m_cv s) then None else acquire t PopCheck s
  | PopFront =>
      match StdQueue.front (m_queue s) with
      | Some elem => Some (goto t (PopPop elem) s, [])
      | None => Some (goto t Undefined s, [])
      end
  | PopPop elem =>
      match StdQueue.pop (m_queue s) with
      | Some q' => Some (goto t (PopUnlock elem) (with_queue q' s),
                         [EvRemove t elem])
      | None => Some (goto t Undefined s, [])
      end
  | PopUnlock elem => release t (v_elem elem) s
  | EmptyLock => acquire t EmptyBody s
  | EmptyBody =>
      Some (goto t (EmptyUnlock (StdQueue.empty (m_queue s))) s, [])
  | EmptyUnlock b => release t (v_bool b) s
  | SizeLock => acquire t SizeBody s
  | SizeBody =>
      Some (goto t (SizeUnlock (StdQueue.size (m_queue s))) s, [])
  | SizeUnlock n => release t (v_size n) s
  | Undefined => None
  end.

(** Entry point of each member function. *)
Definition entry (m : method) : pc :=
  match m with
  | m_push elem => PushLock elem
  | m_pop => PopLock
  | m_empty => EmptyLock
  | m_size => SizeLock
  end.

(** What the scheduler and the environment can do. *)
Inductive action : Type :=
| Call (t : tid) (m : method)  (* idle thread t calls a member function *)
| Step (t : tid)               (* t executes its next statement *)
| Notify (t w : tid)           (* t's notify_one() unblocks waiter w *)
| Spurious (w : tid).          (* waiter w is unblocked spuriously *)

Definition perform (a : action) (s : state) : option (state * list event) :=
  match a with
  | Call t m =>
      match threads s t with
      | Idle => Some (goto t (entry m) s, [])
      | _ => None
      end
  | Step t => step t s
  | Notify t w =>
      match threads s t with
      | PushNotify =>
          if decide (w ∈ m_cv s)
          then Some (goto t PushUnlock (with_cv (m_cv s ∖ {[w]}) s), [])
          else None
      | _ => None
      end
  | Spurious w =>
      if decide (w ∈ m_cv s)
      then Some (with_cv (m_cv s ∖ {[w]}) s, [])
      else None
  end.

(** Replay a schedule; [None] if some action is not enabled when its turn
    comes. *)
Fixpoint run (sched : list action) (s : state)
  : option (state * list event) :=
  match sched with
  | [] => Some (s, [])
  | a :: sched' =>
      match perform a s with
      | None => None
      | Some (s', evs) =>
          match run sched' s' with
          | None => None
          | Some (s'', evs') => Some (s'', evs ++ evs')
          end
      end
  end.

(** ** Projections of an event trace *)

(** Elements in the order their [m_queue.push] was executed. *)
Fixpoint inserted (evs : list event) : list T :=
  match evs with
  | [] => []
  | EvInsert _ elem :: evs' => elem :: inserted evs'
  | _ :: evs' => inserted evs'
  end.

(** Elements in the order their [m_queue.pop] was executed. *)
Fixpoint removed (evs : list event) : list T :=
  match evs with
  | [] => []
  | EvRemove _ elem :: evs' => elem :: removed evs'
  | _ :: evs' => removed evs'
  end.

(** Elements handed to callers of [pop], in the order the calls returned. *)
Fixpoint returned (evs : list event) : list T :=
  match evs with
  | [] => []
  | EvReturn _ (v_elem elem) :: evs' => elem :: returned evs'
  | _ :: evs' => returned evs'
  end.

(** All values handed back to callers, oldest first. *)
Fixpoint results (evs : list event) : list value :=
  match evs with
  | [] => []
  | EvReturn _ v :: evs' => v :: results evs'
  | _ :: evs' => results evs'
  end.

(** ** Single-threaded use

    A thread that runs a whole call without being interleaved with others:
    the call action followed by every statement of the member function. *)

(** [notify_one] as an action of [t]: with nobody suspended it is an
    ordinary statement, otherwise it unblocks the chosen waiter. *)
Definition notify_one (t : tid) (w : option tid) : action :=
  match w with None => Step t | Some w' => Notify t w' end.

Definition call_push (t : tid) (elem : T) (w : option tid) : list action :=
  [Call t (m_push elem); Step t; Step t; notify_one t w; Step t].

Definition call_pop (t : tid) : list action :=
  [Call t m_pop; Step t; Step t; Step t; Step t; Step t].

Definition call_empty (t : tid) : list action :=
  [Call t m_empty; Step t; Step t; Step t].

Definition call_size (t : tid) : list action :=
  [Call t m_size; Step t; Step t; Step t].

Definition pushes (t : tid) (elems : list T) : list action :=
  concat (map (λ elem, call_push t elem None) elems).

Definition pops (t : tid) (n : nat) : list action :=
  concat (replicate n (call_pop t)).

(** The choice of the thread unblocked by [notify_one] is legal in [s]. *)
Definition may_wake (w : option tid) (s : state) : Prop :=
  match w with None => m_cv s = ∅ | Some w' => w' ∈ m_cv s end.

(** The threads it takes out of the wait set. *)
Definition woken (w : option tid) : gset tid :=
  match w with None => ∅ | Some w' => {[w']} end.

(** ** Invariants of the machine *)

(** Control points inside a critical section. *)
Definition holds (p : pc) : bool :=
  match p with
  | PushBody _ | PushNotify | PushUnlock
  | PopCheck | PopFront | PopPop _ | PopUnlock _
  | EmptyBody | EmptyUnlock _
  | SizeBody | SizeUnlock _ => true
  | _ => false
  end.

(** What every reachable state satisfies: only the owner of the mutex is
    inside a critical section, the wait set holds suspended threads only,
    and a thread about to access the front of the buffer finds it there. *)
Record inv (s : state) : Prop := Inv {
  inv_mutex : ∀ t, holds (threads s t) = true → m_mutex s = Some t;
  inv_cv : ∀ t, t ∈ m_cv s → threads s t = PopWait;
  inv_front : ∀ t, threads s t = PopFront → m_queue s ≠ [];
  inv_pop : ∀ t elem,
    threads s t = PopPop elem → StdQueue.front (m_queue s) = Some elem;
  inv_defined : ∀ t, threads s t ≠ Undefined;
}.

(** The element a [pop] has taken out of the buffer and not yet returned. *)
Definition in_flight (s : state) : list T :=
  match m_mutex s with
  | Some t => match threads s t with PopUnlock elem => [elem] | _ => [] end
  | None => []
  end.

(** How the trace of an execution relates to the state it ends in. *)
Record hist (evs : list event) (s : state) : Prop := Hist {
  hist_buffer : inserted evs = removed evs ++ m_queue s;
  hist_return : removed evs = returned evs ++ in_flight s;
}.

(** [s] is the state, and [evs] the trace, of some execution that starts
    with the construction of the queue. *)
Definition reachable (s : state) (evs : list event) : Prop :=
  ∃ sched, run sched construct = Some (s, evs).

(** ** Derived notions used in the statements *)

(** The two logical states of a queue instance. *)
Inductive logical : Type := EMPTY | NON_EMPTY.

Definition logical_state (s : state) : logical :=
  if StdQueue.empty (m_queue s) then EMPTY else NON_EMPTY.


(** Control points of the two observers. *)
Definition observing (p : pc) : bool :=
  match p with
  | EmptyLock | EmptyBody | EmptyUnlock _
  | SizeLock | SizeBody | SizeUnlock _ => true
  | _ => false
  end.

(** [n] consecutive statements of thread [t]. *)
Definition steps (t : tid) (n : nat) : list action := replicate n (Step t).

(** State and trace at the end of a schedule started in [s]. *)
Definition final (sched : list action) (s : state) : state :=
  match run sched s with Some (s', _) => s' | None => s end.

Definition trace (sched : list action) (s : state) : list event :=
  match run sched s with Some (_, evs) => evs | None => [] end.

End blocking_queue.

(** ** Concrete schedules over [blocking_queue<nat>] *)

Module Demo.
(** A queue of naturals right after construction. *)
Definition fresh : state (T:=nat) := construct.






(** Two producers and two consumers, interleaved statement by statement:
    thread 3 is suspended first, threads 0 and 1 push 10 and 20, thread 2
    pops while thread 0 is still waiting for the mutex. *)
Definition interleaved : list (action (T:=nat)) :=
  [Call 3 m_pop; Step 3; Step 3;
   Call 0 (m_push 10); Call 1 (m_push 20); Call 2 m_pop;
   Step 1; Step 1; Notify 1 3; Step 1;
   Step 2; Step 2; Step 2; Step 2; Step 2;
   Step 0; Step 0; Step 0; Step 0;
   Step 3; Step 3; Step 3; Step 3; Step 3].

(** Thread 0 pushes 7 and thread 1 has just passed the predicate of
    [pop]. *)
Definition at_front : list (action (T:=nat)) :=
  call_push 0 7 None ++ [Call 1 m_pop; Step 1; Step 1].
End Demo.

(** ** Further invariants of the monitor *)

Section monitor_invariants.
Context {T : Type}.

(** Control points of [pop] up to and including the removal of the head. *)
Definition taking (p : pc (T:=T)) : bool :=
  match p with
  | PopLock | PopCheck | PopWait | PopFront | PopPop _ => true
  | _ => false
  end.

(** 1 while a [push] has inserted its element and has not yet executed
    [notify_one], 0 otherwise. *)
Definition unannounced (s : state (T:=T)) : nat :=
  match m_mutex s with
  | Some t => match threads s t with PushNotify => 1 | _ => 0 end
  | None => 0
  end.

(** No lost wake-up: while some thread is suspended, every element of the
    buffer that has been announced is matched by a distinct thread that is
    inside [pop], not suspended, and has not removed an element yet. *)
Definition covered (s : state (T:=T)) : Prop :=
  ∃ A : gset tid,
    (∀ t, t ∈ A → taking (threads s t) = true ∧ t ∉ m_cv s)
    ∧ (m_cv s ≠ ∅ → length (m_queue s) ≤ size A + unannounced s).

(** The value an observer is about to return is the one the buffer has
    now. *)
Definition exact (s : state (T:=T)) : Prop :=
  ∀ t,
    (∀ b, threads s t = EmptyUnlock b → b = StdQueue.empty (m_queue s))
    ∧ (∀ n, threads s t = SizeUnlock n → n = StdQueue.size (m_queue s)).

End monitor_invariants.

(** Further schedules over [blocking_queue<nat>]. *)
Module Scenario.
(** Threads 1 and 3 are suspended in [pop]; thread 0 pushes 7 and its
    [notify_one] unblocks thread 1, which has not run yet. *)
Definition one_of_two_woken : list (action (T:=nat)) :=
  [Call 1 m_pop; Step 1; Step 1; Call 3 m_pop; Step 3; Step 3]
  ++ call_push 0 7 (Some 1).

(** Thread 0 pushes 7 and 8; thread 1 is about to return from [size()]
    while thread 2 waits for the mutex to push. *)
Definition size_returning : list (action (T:=nat)) :=
  pushes 0 [7; 8]
  ++ [Call 1 m_size; Call 2 (m_push 9); Step 1; Step 1].

(** Thread 0 is between its insertion and its [notify_one]; thread 1 waits
    for the mutex. *)
Definition inside_push : list (action (T:=nat)) :=
  [Call 0 (m_push 7); Call 1 m_pop; Step 0; Step 0].
End Scenario.

(** ** The benchmark (monte_carlo.cpp)

    [uint64_t] values are integers reduced modulo 2^64.  [int] and
    [unsigned int] are 32 bits wide, and a conversion to [int] keeps the
    value modulo 2^32.  What the random engine draws and what the
    floating-point test [first * first + second * second < 1.0] answers is
    given from outside, as an oracle telling for each sample whether it is
    a hit.  [sleep_for], the clock and the output are left out. *)

Module Benchmark.

Definition uint64 (z : Z) : Z := (z mod 2 ^ 64)%Z.
Definition uint32 (z : Z) : Z := (z mod 2 ^ 32)%Z.
Definition int32 (z : Z) : Z := ((z + 2 ^ 31) mod 2 ^ 32 - 2 ^ 31)%Z.

(** [for (uint64_t i = first; i < first + n; ++i) body] *)
Fixpoint for_loop {St : Type} (body : nat → St → St) (first n : nat)
    (st : St) : St :=
  match n with
  | 0 => st
  | S n' => for_loop body (S first) n' (body first st)
  end.

(** [if (...) ++in_circle;] on a [uint64_t]. *)
Definition tally (hit : bool) (in_circle : Z) : Z :=
  if hit then uint64 (in_circle + 1)%Z else in_circle.

(** [execute_sequential]: the two arguments handed to [report_accuracy]. *)
Definition execute_sequential (hit : nat → bool) (total_points : nat)
  : Z * Z :=
  (for_loop (λ i, tally (hit i)) 0 total_points 0%Z,
   Z.of_nat total_points).

(** [execute_parallel].  [counts] is the shared vector, [loop_i] holds the
    loop variable [i] of every worker. *)
Record workers : Type := Workers {
  counts : list Z;
  loop_i : list nat;
}.

(** [vector<uint64_t> counts(num_threads, 0)] and one worker per index. *)
Definition spawn (num_threads : nat) : workers :=
  {| counts := replicate num_threads 0%Z;
     loop_i := replicate num_threads 0 |}.

(** One iteration of the loop of worker [idx]; [None] when [idx] is no
    worker or its loop has ended. *)
Definition iterate (hit : nat → nat → bool) (points_per_thread : nat)
    (idx : nat) (st : workers) : option workers :=
  match loop_i st !! idx with
  | Some i =>
      if decide (i < points_per_thread)
      then Some {| counts := alter (tally (hit idx i)) idx (counts st);
                   loop_i := <[idx := S i]> (loop_i st) |}
      else None
  | None => None
  end.

(** Any interleaving of the workers: the schedule names the worker that
    runs its next iteration. *)
Fixpoint interleave (hit : nat → nat → bool) (points_per_thread : nat)
    (sched : list nat) (st : workers) : option workers :=
  match sched with
  | [] => Some st
  | idx :: sched' =>
      match iterate hit points_per_thread idx st with
      | Some st' => interleave hit points_per_thread sched' st'
      | None => None
      end
  end.

(** All workers can be joined. *)
Definition joined (points_per_thread : nat) (st : workers) : Prop :=
  Forall (λ i, i = points_per_thread) (loop_i st).

(** [std::accumulate(counts.begin(), counts.end(), 0)]: the accumulator has
    the type of the literal [0], which is [int]; each [init + *first] is
    computed in [uint64_t] and converted back to [int]. *)
Definition accumulate (cs : list Z) : Z :=
  fold_left (λ init c, int32 (uint64 (uint64 init + c)%Z)) cs 0%Z.

(** The two arguments [execute_parallel] hands to [report_accuracy] once
    the workers are joined: the [int] sum converted to [uint64_t], and
    [num_threads * points_per_thread]. *)
Definition report_parallel (num_threads points_per_thread : nat)
    (st : workers) : Z * Z :=
  (uint64 (accumulate (counts st)),
   uint64 (Z.of_nat num_threads * Z.of_nat points_per_thread)%Z).

(** Number of hits among the samples [0 .. n-1]. *)
Fixpoint hits (hit : nat → bool) (n : nat) : nat :=
  match n with
  | 0 => 0
  | S n' => hits hit n' + (if hit n' then 1 else 0)
  end.

(** Sum of a vector of counters, without any reduction. *)
Definition sum_counts (cs : list Z) : Z := foldr Z.add 0%Z cs.

(** What every interleaving of the workers maintains: both vectors keep
    their length, no loop runs past its bound, and the counter of a worker
    is the number of hits among the samples it has tested. *)
Definition counted (hit : nat → nat → bool) (points_per_thread n : nat)
    (st : workers) : Prop :=
  length (counts st) = n ∧ length (loop_i st) = n
  ∧ ∀ idx i, loop_i st !! idx = Some i →
      i ≤ points_per_thread
      ∧ counts st !! idx = Some (Z.of_nat (hits (hit idx) i)).

(** [main].  [hc] is the value of [thread::hardware_concurrency()]. *)
Definition POINTS_PER_TYPE : Z := uint64 (int32 (Z.shiftl 1 15)).
Definition THREADS_PER_TYPE (hc : Z) : Z := uint32 (hc / 2)%Z.
Definition SLEEP_NS : Z := 50%Z.

(** The arguments of the three calls made by [main]. *)
Record calls : Type := Calls {
  monitor_threads_per_type : Z;
  monitor_points_per_thread : Z;
  sequential_total_points : Z;
  parallel_num_threads : Z;
  parallel_points_per_thread : Z;
}.

Definition main (hc : Z) : calls :=
  {| monitor_threads_per_type := uint64 (THREADS_PER_TYPE hc);
     monitor_points_per_thread := uint64 (2 * POINTS_PER_TYPE)%Z;
     sequential_total_points :=
       uint64 (uint64 (uint32 (2 * THREADS_PER_TYPE hc)%Z) * POINTS_PER_TYPE)%Z;
     parallel_num_threads := uint64 (uint32 (2 * THREADS_PER_TYPE hc)%Z);
     parallel_points_per_thread := POINTS_PER_TYPE |}.

End Benchmark.

(** ** Statement by statement: what one action does to the acting thread *)

Section moves.
Context {T : Type}.

(** [moves t p p' evs]: a statement of [t] inside a member function takes
    it from control point [p] to [p'] and is observed as [evs].  This is
    the program order of the four member functions. *)
Inductive moves (t : tid) : pc (T:=T) → pc (T:=T) → list (event (T:=T)) → Prop :=
| mv_push_lock elem : moves t (PushLock elem) (PushBody elem) []
| mv_insert elem : moves t (PushBody elem) PushNotify [EvInsert t elem]
| mv_notify : moves t PushNotify PushUnlock []
| mv_push_return : moves t PushUnlock Idle [EvReturn t v_void]
| mv_pop_lock : moves t PopLock PopCheck []
| mv_suspend : moves t PopCheck PopWait []
| mv_pass : moves t PopCheck PopFront []
| mv_relock : moves t PopWait PopCheck []
| mv_front elem : moves t PopFront (PopPop elem) []
| mv_remove elem : moves t (PopPop elem) (PopUnlock elem) [EvRemove t elem]
| mv_pop_return elem :
    moves t (PopUnlock elem) Idle [EvReturn t (v_elem elem)]
| mv_empty_lock : moves t EmptyLock EmptyBody []
| mv_empty_body b : moves t EmptyBody (EmptyUnlock b) []
| mv_empty_return b : moves t (EmptyUnlock b) Idle [EvReturn t (v_bool b)]
| mv_size_lock : moves t SizeLock SizeBody []
| mv_size_body n : moves t SizeBody (SizeUnlock n) []
| mv_size_return n : moves t (SizeUnlock n) Idle [EvReturn t (v_size n)].

(** The thread recorded as owner of the mutex is inside a critical
    section. *)
Definition owned (s : state (T:=T)) : Prop :=
  ∀ t, m_mutex s = Some t → holds (threads s t) = true.

End moves.

(** ** [execute_monitor]

    [threads_per_type] producers and as many consumers share one queue of
    points.  Producer [k] is thread [k], consumer [k] is thread
    [threads_per_type + k].  [inside pt] is the answer of the test
    [pt.first * pt.first + pt.second * pt.second < 1.0]; the point a
    producer draws is supplied with its call. *)

Section execute_monitor.
Context {T : Type}.
Variable inside : T → bool.
Variables threads_per_type points_per_thread : nat.

Inductive role : Type := Producer | Consumer.

Definition role_of (t : tid) : option role :=
  if decide (t < threads_per_type) then Some Producer
  else if decide (t < threads_per_type + threads_per_type)
       then Some Consumer
       else None.

Record experiment : Type := Experiment {
  points : state (T:=T);     (* blocking_queue<pair<double, double>> points *)
  in_circle : Z;             (* atomic<uint64_t> in_circle *)
  loop_var : tid → nat;      (* the variable i of each thread's loop *)
  popped : tid → option T;   (* pt of a consumer, popped and not yet tested *)
}.

(** The state in which the threads are started. *)
Definition start : experiment :=
  {| points := construct; in_circle := 0%Z;
     loop_var := λ _, 0; popped := λ _, None |}.

(** A thread either acts on the queue or, as a consumer holding a popped
    point, tests it, increments [in_circle] if it is inside, and ends the
    iteration. *)
Inductive move : Type :=
| Queue (a : action (T:=T))
| Test (t : tid).

(** A producer calls [push] and a consumer calls [pop], each while its
    loop has not ended; nothing else is ever called. *)
Definition allowed (a : action (T:=T)) (e : experiment) : bool :=
  match a with
  | Call t m =>
      match role_of t, m, popped e t with
      | Some Producer, m_push _, _ =>
          bool_decide (loop_var e t < points_per_thread)
      | Some Consumer, m_pop, None =>
          bool_decide (loop_var e t < points_per_thread)
      | _, _, _ => false
      end
  | _ => true
  end.

(** What the caller does when a call returns: a producer ends its
    iteration, a consumer keeps the point for the test. *)
Definition settle (ev : event (T:=T)) (e : experiment) : experiment :=
  match ev with
  | EvReturn t v_void =>
      {| points := points e; in_circle := in_circle e;
         loop_var := <[t := S (loop_var e t)]> (loop_var e);
         popped := popped e |}
  | EvReturn t (v_elem pt) =>
      {| points := points e; in_circle := in_circle e;
         loop_var := loop_var e;
         popped := <[t := Some pt]> (popped e) |}
  | _ => e
  end.

Definition advance (mv : move) (e : experiment)
  : option (experiment * list (event (T:=T))) :=
  match mv with
  | Queue a =>
      if allowed a e then
        match perform a (points e) with
        | Some (s', evs) =>
            Some (foldr settle
                    {| points := s'; in_circle := in_circle e;
                       loop_var := loop_var e; popped := popped e |} evs,
                  evs)
        | None => None
        end
      else None
  | Test t =>
      match popped e t with
      | Some pt =>
          Some ({| points := points e;
                   in_circle := Benchmark.tally (inside pt) (in_circle e);
                   loop_var := <[t := S (loop_var e t)]> (loop_var e);
                   popped := <[t := None]> (popped e) |}, [])
      | None => None
      end
  end.

Fixpoint play (sched : list move) (e : experiment)
  : option (experiment * list (event (T:=T))) :=
  match sched with
  | [] => Some (e, [])
  | mv :: sched' =>
      match advance mv e with
      | None => None
      | Some (e', evs) =>
          match play sched' e' with
          | None => None
          | Some (e'', evs') => Some (e'', evs ++ evs')
          end
      end
  end.

(** Thread [t] has left its loop and can be joined. *)
Definition ended (e : experiment) (t : tid) : bool :=
  bool_decide (loop_var e t = points_per_thread)
  && match popped e t with None => true | Some _ => false end
  && match threads (points e) t with Idle => true | _ => false end.

(** Every [join] of [execute_monitor] returns. *)
Definition all_joined (e : experiment) : Prop :=
  ∀ t, t < threads_per_type + threads_per_type → ended e t = true.

(** The two arguments handed to [report_accuracy] after the joins. *)
Definition report_monitor (e : experiment) : Z * Z :=
  (in_circle e,
   Benchmark.uint64
     (Z.of_nat threads_per_type * Z.of_nat points_per_thread)%Z).

(** Number of points of a list that pass the test. *)
Fixpoint hits_in (pts : list T) : nat :=
  match pts with
  | [] => 0
  | pt :: pts' => (if inside pt then 1 else 0) + hits_in pts'
  end.

Definition producers : list tid := seq 0 threads_per_type.
Definition consumers : list tid := seq threads_per_type threads_per_type.

(** Elements thread [t] has inserted. *)
Definition pushed_by (e : experiment) (t : tid) : nat :=
  loop_var e t
  + match threads (points e) t with PushNotify | PushUnlock => 1 | _ => 0 end.

(** Elements thread [t] has removed. *)
Definition popped_by (e : experiment) (t : tid) : nat :=
  loop_var e t
  + match popped e t with Some _ => 1 | None => 0 end
  + match threads (points e) t with PopUnlock _ => 1 | _ => 0 end.

(** Hits among the points thread [t] has removed and not yet tested. *)
Definition untested_hits (e : experiment) (t : tid) : nat :=
  match popped e t with Some pt => hits_in [pt] | None => 0 end
  + match threads (points e) t with
    | PopUnlock pt => hits_in [pt]
    | _ => 0
    end.

(** Where a thread of each kind can be. *)
Definition shape (e : experiment) (t : tid) : Prop :=
  match role_of t with
  | None =>
      threads (points e) t = Idle ∧ loop_var e t = 0 ∧ popped e t = None
  | Some Producer =>
      popped e t = None
      ∧ match threads (points e) t with
        | Idle => loop_var e t ≤ points_per_thread
        | PushLock _ | PushBody _ | PushNotify | PushUnlock =>
            loop_var e t < points_per_thread
        | _ => False
        end
  | Some Consumer =>
      match threads (points e) t with
      | Idle =>
          match popped e t with
          | None => loop_var e t ≤ points_per_thread
          | Some _ => loop_var e t < points_per_thread
          end
      | PopLock | PopCheck | PopWait | PopFront | PopPop _ | PopUnlock _ =>
          popped e t = None ∧ loop_var e t < points_per_thread
      | _ => False
      end
  end.

(** What every state of the experiment satisfies, [evs] being the trace of
    the queue so far. *)
Record sound (evs : list (event (T:=T))) (e : experiment) : Prop := Sound {
  sound_queue : reachable (points e) evs;
  sound_shape : ∀ t, shape e t;
  sound_pushed :
    length (inserted evs) = sum_list (pushed_by e <$> producers);
  sound_popped :
    length (removed evs) = sum_list (popped_by e <$> consumers);
  sound_hits :
    Z.of_nat (hits_in (removed evs))
    = (in_circle e
       + Z.of_nat (sum_list (untested_hits e <$> consumers)))%Z;
  sound_count : (0 ≤ in_circle e)%Z;
}.

(** A bound on what thread [t] still has to do: 11 for every iteration it
    has not begun, and within an iteration the number of statements left,
    where an unblocked waiter counts more than the predicate it goes back
    to and a suspended one counts nothing. *)
Definition weight (e : experiment) (t : tid) : nat :=
  match threads (points e) t with
  | Idle =>
      match popped e t with
      | Some _ => (points_per_thread - loop_var e t - 1) * 11 + 1
      | None => (points_per_thread - loop_var e t) * 11
      end
  | PushLock _ => (points_per_thread - loop_var e t - 1) * 11 + 10
  | PushBody _ => (points_per_thread - loop_var e t - 1) * 11 + 9
  | PushNotify => (points_per_thread - loop_var e t - 1) * 11 + 8
  | PushUnlock => (points_per_thread - loop_var e t - 1) * 11 + 1
  | PopLock => (points_per_thread - loop_var e t - 1) * 11 + 7
  | PopCheck => (points_per_thread - loop_var e t - 1) * 11 + 5
  | PopWait =>
      (points_per_thread - loop_var e t - 1) * 11
      + (if decide (t ∈ m_cv (points e)) then 0 else 6)
  | PopFront => (points_per_thread - loop_var e t - 1) * 11 + 4
  | PopPop _ => (points_per_thread - loop_var e t - 1) * 11 + 3
  | PopUnlock _ => (points_per_thread - loop_var e t - 1) * 11 + 2
  | _ => 0
  end.

Definition all_threads : list tid :=
  seq 0 (threads_per_type + threads_per_type).

Definition measure (e : experiment) : nat :=
  sum_list (weight e <$> all_threads).

(** A schedule in which no thread is unblocked spuriously. *)
Definition notified_only (sched : list move) : Prop :=
  Forall (λ mv, ∀ w, mv ≠ Queue (Spurious w)) sched.

(** State and trace at the end of a schedule of the experiment. *)
Definition ending (sched : list move) : experiment :=
  match play sched start with Some (e, _) => e | None => start end.

Definition record (sched : list move) : list (event (T:=T)) :=
  match play sched start with Some (_, evs) => evs | None => [] end.

End execute_monitor.

(** ** Concrete runs of the benchmark *)

Module Trial.
Import Benchmark.

(** Two workers, two samples each; a sample is a hit when the sum of the
    worker index and the sample index is even. *)
Definition hit2 (idx i : nat) : bool := Nat.even (idx + i).

Definition two_workers : workers :=
  match interleave hit2 2 [0; 1; 1; 0] (spawn 2) with
  | Some st => st
  | None => spawn 2
  end.

(** One producer (thread 0) and one consumer (thread 1), two points each;
    a point is inside when it is below 5. *)
Definition below5 (pt : nat) : bool := Nat.ltb pt 5.

(** The consumer calls [pop] first and is suspended. *)
Definition consumer_first : list (move (T:=nat)) :=
  [Queue (Call 1 m_pop); Queue (Step 1); Queue (Step 1)].

(** The producer pushes 3 and unblocks the consumer, which takes 3 and
    tests it; then 8 is pushed, popped and tested. *)
Definition whole_run : list (move (T:=nat)) :=
  consumer_first
  ++ [Queue (Call 0 (m_push 3)); Queue (Step 0); Queue (Step 0);
      Queue (Notify 0 1); Queue (Step 0)]
  ++ [Queue (Step 1); Queue (Step 1); Queue (Step 1); Queue (Step 1);
      Queue (Step 1); Test 1]
  ++ [Queue (Call 0 (m_push 8)); Queue (Call 1 m_pop); Queue (Step 0);
      Queue (Step 0); Queue (Step 0); Queue (Step 0)]
  ++ [Queue (Step 1); Queue (Step 1); Queue (Step 1); Queue (Step 1);
      Queue (Step 1); Test 1].
End Trial.

(** ** Proof automation *)

Create Rewrite HintDb trace.

(** Instantiate a hypothesis whose premise is at hand, drop the ones
    whose premise is absurd. *)
Ltac use_premises :=
  repeat match goal with
  | H : ?x = ?x → _ |- _ => specialize (H eq_refl)
  | H : ∀ x, ?c _ = ?c x → _ |- _ => specialize (H _ eq_refl)
  | H : ?P → _, H' : ?P |- _ =>
      match type of P with Prop => specialize (H H') end
  | H : false = true → _ |- _ => clear H
  | H : false = true |- _ => discriminate H
  end.

(** After a move of thread [t], look at an arbitrary thread [t']: either it
    is [t] itself, or its control point is the one it had before. *)
Ltac same_or_other t t' :=
  destruct (decide (t = t')) as [<-|?];
  [ rewrite ?fn_lookup_insert in *
  | rewrite ?fn_lookup_insert_ne in * by done ].

Ltac close_inv_goal :=
  repeat match goal with
  | H : threads _ _ = _ |- _ => rewrite H in *; simpl in *
  end;
  use_premises; try done; try congruence;
  try (match goal with
       | |- context [m_queue ?s] => destruct (m_queue s)
       | H : context [m_queue ?s] |- _ => destruct (m_queue s)
       end; simpl in *; use_premises; simplify_eq; done);
  try (match goal with
       | H : _ ∈ {[_]} ∪ _ |- _ =>
           apply elem_of_union in H as [H%elem_of_singleton|H]
       | H : _ ∈ _ ∖ _ |- _ => apply elem_of_difference in H as [H _]
       end; use_premises; done).

Ltac close_hist_goal :=
  use_premises; unfold in_flight in *; simpl in *;
  repeat match goal with
  | H : m_mutex _ = _ |- _ => rewrite H in *
  | H : threads _ _ = _ |- _ => rewrite H in *
  end;
  try match goal with
      | H : StdQueue.pop (m_queue ?s) = Some _ |- _ =>
          destruct (m_queue s); simpl in *; simplify_eq
      end;
  match goal with
  | Hb : inserted _ = _, Hr : removed _ = _ |- _ =>
      split; autorewrite with trace; simpl;
      rewrite ?app_nil_r, ?Hb, ?Hr; unfold in_flight; simpl;
      try match goal with H : m_mutex _ = _ |- _ => rewrite ?H end;
      rewrite ?fn_lookup_insert; simpl;
      rewrite <- ?app_assoc, ?app_nil_r
  end;
  try done.

(** Make the powers of two of the integer types literal, for [lia]. *)
Ltac literal_bounds :=
  change (2 ^ 64)%Z with 18446744073709551616%Z in *;
  change (2 ^ 32)%Z with 4294967296%Z in *;
  change (2 ^ 31)%Z with 2147483648%Z in *.

(** Replay a schedule of one thread symbolically. *)
Ltac replay :=
  repeat first
    [ rewrite fn_lookup_insert
    | rewrite decide_True by done
    | rewrite decide_False by done
    | match goal with
      | H : threads _ _ = _ |- _ => rewrite H
      | H : m_mutex _ = _ |- _ => rewrite H
      | H : m_queue _ = _ |- _ => rewrite H
      end
    | progress unfold step, acquire, release
    | progress simpl ].

(** A thread that is back at [Idle] leaves the control points as they
    were before its call. *)
Ltac restored t :=
  let t' := fresh "t'" in
  intros t'; simpl; destruct (decide (t = t')) as [<-|?];
  [ by rewrite fn_lookup_insert | by rewrite !fn_lookup_insert_ne ].


Section invariants.
Context {T : Type}.
Implicit Types (s : state (T:=T)) (t : tid).

Lemma suspended_self t (c : gset tid) : t ∈ {[t]} ∪ c.
Proof. apply elem_of_union. left. by apply elem_of_singleton. Qed.

Lemma unblocked_gone w (c : gset tid) : w ∉ c ∖ {[w]}.
Proof. rewrite elem_of_difference, elem_of_singleton. by intros [_ ?]. Qed.

Lemma inv_construct : inv (construct (T:=T)).
Proof. by split. Qed.

Lemma perform_inv a s s' evs :
  inv s → perform a s = Some (s', evs) → inv s'.
Proof.
  intros [Hm Hc Hf Hp Hd] Hstep.
  destruct a as [t m|t|t w|w]; simpl in Hstep.
  - pose proof (Hc t) as Hct.
    destruct (threads s t) eqn:Ht; simplify_eq.
    split; simpl; intros t'; intros; same_or_other t t'; eauto.
    all: destruct m; simpl in *; close_inv_goal.
  - unfold step, acquire, release in Hstep.
    pose proof (Hm t) as Hmt. pose proof (Hc t) as Hct.
    pose proof (Hf t) as Hft. pose proof (Hp t) as Hpt.
    destruct (threads s t) eqn:Ht; simpl in *;
      repeat case_match; simplify_eq.
    all: split; simpl; intros t'; intros; same_or_other t t'.
    all: try (pose proof (Hm t') as Hmt'; pose proof (Hc t') as Hct';
              pose proof (Hf t') as Hft'; pose proof (Hp t') as Hpt';
              pose proof (Hd t') as Hdt').
    all: clear Hm Hc Hf Hp Hd; close_inv_goal.
  - pose proof (Hm t) as Hmt. pose proof (Hc t) as Hct.
    destruct (threads s t) eqn:Ht; simpl in *;
      repeat case_match; simplify_eq.
    all: split; simpl; intros t'; intros; same_or_other t t'.
    all: try (pose proof (Hm t') as Hmt'; pose proof (Hc t') as Hct';
              pose proof (Hf t') as Hft'; pose proof (Hp t') as Hpt';
              pose proof (Hd t') as Hdt').
    all: clear Hm Hc Hf Hp Hd; close_inv_goal.
  - case_match; simplify_eq.
    split; simpl; eauto.
    intros t' [Ht' _]%elem_of_difference. by apply Hc.
Qed.

Lemma run_inv sched s s' evs :
  inv s → run sched s = Some (s', evs) → inv s'.
Proof.
  revert s evs. induction sched as [|a sched IH]; intros s evs Hi Hrun;
    simpl in Hrun.
  - by simplify_eq.
  - destruct (perform a s) as [[s1 evs1]|] eqn:Ha; [|done].
    destruct (run sched s1) as [[s2 evs2]|] eqn:Hr; simplify_eq.
    eauto using perform_inv.
Qed.

Lemma reachable_inv s evs : reachable s evs → inv s.
Proof. intros [sched Hrun]. eauto using run_inv, inv_construct. Qed.

Lemma inserted_app (h1 h2 : list (event (T:=T))) :
  inserted (h1 ++ h2) = inserted h1 ++ inserted h2.
Proof.
  induction h1 as [|[]]; simpl; [done | by f_equal | done | done].
Qed.

Lemma removed_app (h1 h2 : list (event (T:=T))) :
  removed (h1 ++ h2) = removed h1 ++ removed h2.
Proof.
  induction h1 as [|[]]; simpl; [done | done | by f_equal | done].
Qed.

Lemma returned_app (h1 h2 : list (event (T:=T))) :
  returned (h1 ++ h2) = returned h1 ++ returned h2.
Proof.
  induction h1 as [|[? ?|? ?|? []]]; simpl; try done. by f_equal.
Qed.

Lemma results_app (h1 h2 : list (event (T:=T))) :
  results (h1 ++ h2) = results h1 ++ results h2.
Proof.
  induction h1 as [|[]]; simpl; try done. by f_equal.
Qed.

Hint Rewrite inserted_app removed_app returned_app results_app : trace.

Lemma hist_construct : hist [] (construct (T:=T)).
Proof. by split. Qed.

Lemma perform_hist a s s' h evs :
  inv s → hist h s → perform a s = Some (s', evs) → hist (h ++ evs) s'.
Proof.
  intros [Hm _ _ Hp _] [Hb Hr] Hstep.
  destruct a as [t m|t|t w|w]; simpl in Hstep.
  - destruct (threads s t) eqn:Ht; simplify_eq.
    split; rewrite ?inserted_app, ?removed_app, ?returned_app, ?app_nil_r;
      [done|].
    rewrite Hr. unfold in_flight; simpl.
    destruct (m_mutex s) as [o|]; [|done].
    same_or_other t o; [|done]. rewrite Ht. by destruct m.
  - unfold step, acquire, release in Hstep.
    pose proof (Hm t) as Hmt. pose proof (Hp t) as Hpt. clear Hm Hp.
    destruct (threads s t) eqn:Ht; simpl in *;
      repeat case_match; simplify_eq.
    all: close_hist_goal.
  - pose proof (Hm t) as Hmt. clear Hm Hp.
    destruct (threads s t) eqn:Ht; simpl in *;
      repeat case_match; simplify_eq.
    close_hist_goal.
  - case_match; simplify_eq.
    split; rewrite ?inserted_app, ?removed_app, ?returned_app, ?app_nil_r;
      done.
Qed.

Lemma run_hist sched s s' h evs :
  inv s → hist h s → run sched s = Some (s', evs) → hist (h ++ evs) s'.
Proof.
  revert s h evs.
  induction sched as [|a sched IH]; intros s h evs Hi Hh Hrun;
    simpl in Hrun.
  - simplify_eq. by rewrite app_nil_r.
  - destruct (perform a s) as [[s1 evs1]|] eqn:Ha; [|done].
    destruct (run sched s1) as [[s2 evs2]|] eqn:Hr; simplify_eq.
    rewrite app_assoc. eauto using perform_inv, perform_hist.
Qed.

Lemma reachable_hist s evs : reachable s evs → hist evs s.
Proof.
  intros [sched Hrun].
  apply (run_hist sched construct s [] evs);
    auto using inv_construct, hist_construct.
Qed.
End invariants.

Section solo.
Context {T : Type}.
Implicit Types (s : state (T:=T)) (t : tid).

Lemma run_app sched1 sched2 s :
  run (sched1 ++ sched2) s =
  match run sched1 s with
  | Some (s1, evs1) =>
      match run sched2 s1 with
      | Some (s2, evs2) => Some (s2, evs1 ++ evs2)
      | None => None
      end
  | None => None
  end.
Proof.
  revert s. induction sched1 as [|a sched1 IH]; intros s; simpl.
  - by destruct (run sched2 s) as [[? ?]|].
  - destruct (perform a s) as [[s1 evs1]|]; [|done].
    rewrite IH. destruct (run sched1 s1) as [[s2 evs2]|]; [|done].
    destruct (run sched2 s2) as [[s3 evs3]|]; [|done].
    by rewrite app_assoc.
Qed.

Lemma solo_push t elem w s :
  m_mutex s = None → threads s t = Idle → may_wake w s →
  ∃ s', run (call_push t elem w) s
          = Some (s', [EvInsert t elem; EvReturn t v_void])
        ∧ m_queue s' = m_queue s ++ [elem]
        ∧ m_mutex s' = None
        ∧ m_cv s' = m_cv s ∖ woken w
        ∧ ∀ t', threads s' t' = threads s t'.
Proof.
  intros Hmu Ht Hw. unfold call_push.
  destruct w as [w|]; simpl in Hw; replay.
  all: eexists; split; [done|]; simpl.
  all: repeat split; try (by rewrite difference_empty_L); restored t.
Qed.

Lemma solo_pop t x q s :
  m_mutex s = None → threads s t = Idle → m_queue s = x :: q →
  ∃ s', run (call_pop t) s
          = Some (s', [EvRemove t x; EvReturn t (v_elem x)])
        ∧ m_queue s' = q
        ∧ m_mutex s' = None
        ∧ m_cv s' = m_cv s
        ∧ ∀ t', threads s' t' = threads s t'.
Proof.
  intros Hmu Ht Hq. unfold call_pop. replay.
  eexists; split; [done|]; simpl.
  repeat split. restored t.
Qed.

(** [pop] on an empty buffer: the caller locks, finds the predicate false
    and is suspended with the mutex released; it cannot move until it is
    removed from the wait set. *)
Lemma solo_pop_blocks t s :
  m_mutex s = None → threads s t = Idle → m_queue s = [] →
  ∃ s', run [Call t m_pop; Step t; Step t] s = Some (s', [])
        ∧ m_queue s' = []
        ∧ m_mutex s' = None
        ∧ m_cv s' = {[t]} ∪ m_cv s
        ∧ threads s' t = PopWait
        ∧ step t s' = None.
Proof.
  intros Hmu Ht Hq. replay.
  eexists; split; [done|]; simpl.
  repeat split; [done | by rewrite fn_lookup_insert |].
  rewrite fn_lookup_insert.
  rewrite decide_True; [done | apply suspended_self].
Qed.

Lemma solo_empty t s :
  m_mutex s = None → threads s t = Idle →
  ∃ s', run (call_empty t) s
          = Some (s', [EvReturn t (v_bool (StdQueue.empty (m_queue s)))])
        ∧ m_queue s' = m_queue s
        ∧ m_mutex s' = None
        ∧ m_cv s' = m_cv s
        ∧ ∀ t', threads s' t' = threads s t'.
Proof.
  intros Hmu Ht. unfold call_empty. replay.
  eexists; split; [done|]; simpl.
  repeat split. restored t.
Qed.

Lemma solo_size t s :
  m_mutex s = None → threads s t = Idle →
  ∃ s', run (call_size t) s
          = Some (s', [EvReturn t (v_size (StdQueue.size (m_queue s)))])
        ∧ m_queue s' = m_queue s
        ∧ m_mutex s' = None
        ∧ m_cv s' = m_cv s
        ∧ ∀ t', threads s' t' = threads s t'.
Proof.
  intros Hmu Ht. unfold call_size. replay.
  eexists; split; [done|]; simpl.
  repeat split. restored t.
Qed.

Lemma solo_pushes t elems s :
  m_mutex s = None → threads s t = Idle → m_cv s = ∅ →
  ∃ s' evs, run (pushes t elems) s = Some (s', evs)
        ∧ inserted evs = elems
        ∧ removed evs = []
        ∧ results evs = replicate (length elems) v_void
        ∧ m_queue s' = m_queue s ++ elems
        ∧ m_mutex s' = None
        ∧ m_cv s' = ∅
        ∧ ∀ t', threads s' t' = threads s t'.
Proof.
  revert s. induction elems as [|elem elems IH]; intros s Hmu Ht Hcv.
  - exists s, []. simpl. by rewrite app_nil_r.
  - destruct (solo_push t elem None s) as (s1 & Hrun1 & Hq1 & Hmu1 & Hcv1 & Hth1);
      [done..|].
    simpl in Hcv1. rewrite Hcv, difference_empty_L in Hcv1.
    destruct (IH s1) as (s2 & evs2 & Hrun2 & Hi2 & Hrm2 & Hrs2 & Hq2 & Hmu2 & Hcv2 & Hth2);
      [done | by rewrite Hth1 | done |].
    exists s2, ([EvInsert t elem; EvReturn t v_void] ++ evs2).
    unfold pushes in *. cbn [map concat]. rewrite run_app, Hrun1, Hrun2.
    simpl.
    rewrite Hi2, Hrs2, Hq2, Hq1, <- app_assoc.
    repeat split; try done. intros t'. by rewrite Hth2, Hth1.
Qed.

Lemma solo_pops t xs q s :
  m_mutex s = None → threads s t = Idle → m_queue s = xs ++ q →
  ∃ s' evs, run (pops t (length xs)) s = Some (s', evs)
        ∧ inserted evs = []
        ∧ removed evs = xs
        ∧ results evs = map v_elem xs
        ∧ m_queue s' = q
        ∧ m_mutex s' = None
        ∧ m_cv s' = m_cv s
        ∧ ∀ t', threads s' t' = threads s t'.
Proof.
  revert s. induction xs as [|x xs IH]; intros s Hmu Ht Hq.
  - by exists s, [].
  - destruct (solo_pop t x (xs ++ q) s) as (s1 & Hrun1 & Hq1 & Hmu1 & Hcv1 & Hth1);
      [done..|].
    destruct (IH s1) as (s2 & evs2 & Hrun2 & Hi2 & Hrm2 & Hrs2 & Hq2 & Hmu2 & Hcv2 & Hth2);
      [done | by rewrite Hth1 | done |].
    exists s2, ([EvRemove t x; EvReturn t (v_elem x)] ++ evs2).
    unfold pops in *. cbn [length replicate concat].
    rewrite run_app, Hrun1, Hrun2. simpl.
    rewrite Hi2, Hrm2, Hrs2, Hq2, Hcv2, Hcv1.
    repeat split; try done. intros t'. by rewrite Hth2, Hth1.
Qed.
End solo.

Section blocking.
Context {T : Type}.
Implicit Types (s : state (T:=T)) (t : tid).



(** A thread unblocked from [wait] that gets the mutex first takes the
    head of the buffer. *)
Lemma woken_takes_head t x q s :
  m_mutex s = None → threads s t = PopWait → t ∉ m_cv s →
  m_queue s = x :: q →
  ∃ s', run (steps t 5) s
          = Some (s', [EvRemove t x; EvReturn t (v_elem x)])
        ∧ m_queue s' = q ∧ threads s' t = Idle ∧ m_mutex s' = None.
Proof.
  intros Hmu Ht Hcv Hq. unfold steps. replay.
  eexists; split; [done|]; simpl.
  split; [done|]. by rewrite fn_lookup_insert.
Qed.

End blocking.

Section frames.
Context {T : Type}.
Implicit Types (s : state (T:=T)) (t : tid).

(** Over any stretch of any execution the buffer only grows at the tail by
    what was inserted and shrinks at the head by what was removed. *)
Lemma run_frame sched s h s' evs :
  reachable s h → run sched s = Some (s', evs) →
  m_queue s ++ inserted evs = removed evs ++ m_queue s'.
Proof.
  intros Hreach Hrun.
  pose proof (reachable_inv _ _ Hreach) as Hi.
  destruct (reachable_hist _ _ Hreach) as [Hb _].
  destruct (run_hist _ _ _ _ _ Hi (reachable_hist _ _ Hreach) Hrun)
    as [Hb' _].
  rewrite inserted_app, removed_app, Hb, <- !app_assoc in Hb'.
  by apply app_inv_head in Hb'.
Qed.

Lemma reachable_run sched s h s' evs :
  reachable s h → run sched s = Some (s', evs) → reachable s' (h ++ evs).
Proof.
  intros [sched0 Hrun0] Hrun. exists (sched0 ++ sched).
  by rewrite run_app, Hrun0, Hrun.
Qed.

(** A schedule that can be replayed to its end. *)
Lemma reachable_final sched :
  is_Some (run sched (construct (T:=T))) →
  reachable (final sched construct) (trace sched construct).
Proof.
  intros [[s evs] Hrun]. exists sched. unfold final, trace.
  by rewrite Hrun.
Qed.

Lemma observer_steps t s s' evs :
  observing (threads s t) = true → step t s = Some (s', evs) →
  m_queue s' = m_queue s ∧ m_cv s' = m_cv s ∧ inserted evs = []
  ∧ removed evs = [].
Proof.
  intros Hobs Hstep. unfold step, acquire, release in Hstep.
  destruct (threads s t); simpl in *; try done;
    repeat case_match; by simplify_eq.
Qed.
End frames.

Section moves_facts.
Context {T : Type}.
Implicit Types (s : state (T:=T)) (t : tid).

Lemma step_moves t s s' evs :
  inv s → step t s = Some (s', evs) →
  moves t (threads s t) (threads s' t) evs
  ∧ ∀ t', t' ≠ t → threads s' t' = threads s t'.
Proof.
  intros [_ _ Hf Hp _] Hstep. unfold step, acquire, release in Hstep.
  pose proof (Hf t) as Hft. pose proof (Hp t) as Hpt.
  destruct (threads s t) eqn:Ht; simpl in *;
    repeat case_match; simplify_eq; use_premises.
  all: try (destruct (m_queue s); by simplify_eq/=).
  all: simpl; rewrite fn_lookup_insert.
  all: split; [by constructor|].
  all: intros t' Hne; by rewrite fn_lookup_insert_ne.
Qed.

Lemma notify_moves t w s s' evs :
  perform (Notify t w) s = Some (s', evs) →
  moves t (threads s t) (threads s' t) evs
  ∧ ∀ t', t' ≠ t → threads s' t' = threads s t'.
Proof.
  intros Hstep. simpl in Hstep.
  destruct (threads s t) eqn:Ht; repeat case_match; simplify_eq.
  simpl. rewrite fn_lookup_insert. split; [by constructor|].
  intros t' Hne. by rewrite fn_lookup_insert_ne.
Qed.

Lemma run_one a s s' evs :
  perform a s = Some (s', evs) → run [a] s = Some (s', evs).
Proof. intros Hp. cbn [run]. by rewrite Hp, app_nil_r. Qed.

Lemma owned_construct : owned (construct (T:=T)).
Proof. by intros t. Qed.

Lemma perform_owned a s s' evs :
  inv s → owned s → perform a s = Some (s', evs) → owned s'.
Proof.
  intros [Hm _ Hf Hp _] Ho Hstep.
  destruct a as [t m|t|t w|w]; simpl in Hstep.
  - destruct (threads s t) eqn:Ht; simplify_eq.
    intros o Hmu. simpl in *. specialize (Ho o Hmu).
    same_or_other t o; [by rewrite Ht in Ho|done].
  - unfold step, acquire, release in Hstep. pose proof (Hm t) as Hmt.
    pose proof (Hf t) as Hft. pose proof (Hp t) as Hpt.
    destruct (threads s t) eqn:Ht; simpl in *;
      repeat case_match; simplify_eq; use_premises.
    all: try (destruct (m_queue s); by simplify_eq/=).
    all: intros o Hmu; simpl in *; simplify_eq.
    all: rewrite ?fn_lookup_insert; try done.
  - pose proof (Hm t) as Hmt.
    destruct (threads s t) eqn:Ht; repeat case_match; simplify_eq.
    intros o Hmu. simpl in *. specialize (Hmt eq_refl). simplify_eq.
    by rewrite fn_lookup_insert.
  - case_match; simplify_eq. done.
Qed.

Lemma reachable_owned s evs : reachable s evs → owned s.
Proof.
  intros [sched Hrun].
  assert (∀ s0 evs0, inv s0 → owned s0 →
            run sched s0 = Some (s, evs0) → owned s) as Hgen.
  { clear Hrun evs. induction sched as [|a sched IH];
      intros s0 evs0 Hi Ho Hrun; simpl in Hrun; [by simplify_eq|].
    destruct (perform a s0) as [[s1 evs1]|] eqn:Ha; [|done].
    destruct (run sched s1) as [[s2 evs2]|] eqn:Hr; simplify_eq.
    eauto using perform_inv, perform_owned. }
  eauto using inv_construct, owned_construct.
Qed.

(** The owner of the mutex can always execute its next statement. *)
Lemma owner_can_move s t :
  m_mutex s = Some t → holds (threads s t) = true →
  ∃ a s' evs, perform a s = Some (s', evs)
    ∧ (a = Step t ∨ ∃ w, a = Notify t w).
Proof.
  intros Hmu Hh.
  destruct (threads s t) eqn:Ht; try done.
  all: try (exists (Step t); simpl; unfold step, release; rewrite Ht;
            repeat case_match; eauto 10; fail).
  destruct (decide (m_cv s = ∅)) as [Hcv|Hcv].
  - exists (Step t). simpl. unfold step. rewrite Ht.
    rewrite decide_True by done. eauto 10.
  - apply set_choose_L in Hcv as [w Hw].
    exists (Notify t w). simpl. rewrite Ht.
    rewrite decide_True by done. eauto 10.
Qed.
End moves_facts.

Section liveness.
Context {T : Type}.
Implicit Types (s : state (T:=T)) (t : tid).

(** The owner of the mutex can run on to the end of its critical section:
    it returns, or it is suspended in [wait]; either way the mutex is free
    afterwards and nobody else has moved. *)
Lemma owner_releases s o :
  inv s → m_mutex s = Some o → holds (threads s o) = true →
  ∃ sched s' evs,
    run sched s = Some (s', evs) ∧ m_mutex s' = None
    ∧ ∀ t, t ≠ o → threads s' t = threads s t.
Proof.
  intros [_ _ Hf Hp _] Hmu Hh.
  pose proof (Hf o) as Hfo. pose proof (Hp o) as Hpo.
  destruct (threads s o) eqn:Ht; try done.
  - destruct (decide (m_cv s = ∅)) as [Hcv|Hcv].
    + exists [Step o; Step o; Step o]. replay.
      eexists _, _. split; [done|]. split; [done|].
      intros t Hne. simpl. by rewrite !fn_lookup_insert_ne.
    + apply set_choose_L in Hcv as [w Hw].
      exists [Step o; Notify o w; Step o]. replay.
      eexists _, _. split; [done|]. split; [done|].
      intros t Hne. simpl. by rewrite !fn_lookup_insert_ne.
  - destruct (decide (m_cv s = ∅)) as [Hcv|Hcv].
    + exists [Step o; Step o]. replay.
      eexists _, _. split; [done|]. split; [done|].
      intros t Hne. simpl. by rewrite !fn_lookup_insert_ne.
    + apply set_choose_L in Hcv as [w Hw].
      exists [Notify o w; Step o]. replay.
      eexists _, _. split; [done|]. split; [done|].
      intros t Hne. simpl. by rewrite !fn_lookup_insert_ne.
  - exists [Step o]. replay.
    eexists _, _. split; [done|]. split; [done|].
    intros t Hne. simpl. by rewrite !fn_lookup_insert_ne.
  - destruct (m_queue s) as [|x q] eqn:Hq.
    + exists [Step o]. replay.
      eexists _, _. split; [done|]. split; [done|].
      intros t Hne. simpl. by rewrite !fn_lookup_insert_ne.
    + exists (steps o 4). unfold steps. replay.
      eexists _, _. split; [done|]. split; [done|].
      intros t Hne. simpl. by rewrite !fn_lookup_insert_ne.
  - specialize (Hfo eq_refl).
    destruct (m_queue s) as [|x q] eqn:Hq; [done|].
    exists (steps o 3). unfold steps. replay.
    eexists _, _. split; [done|]. split; [done|].
    intros t Hne. simpl. by rewrite !fn_lookup_insert_ne.
  - specialize (Hpo _ eq_refl).
    destruct (m_queue s) as [|x q] eqn:Hq; [done|].
    exists (steps o 2). unfold steps. replay.
    eexists _, _. split; [done|]. split; [done|].
    intros t Hne. simpl. by rewrite !fn_lookup_insert_ne.
  - exists [Step o]. replay.
    eexists _, _. split; [done|]. split; [done|].
    intros t Hne. simpl. by rewrite !fn_lookup_insert_ne.
  - exists [Step o; Step o]. replay.
    eexists _, _. split; [done|]. split; [done|].
    intros t Hne. simpl. by rewrite !fn_lookup_insert_ne.
  - exists [Step o]. replay.
    eexists _, _. split; [done|]. split; [done|].
    intros t Hne. simpl. by rewrite !fn_lookup_insert_ne.
  - exists [Step o; Step o]. replay.
    eexists _, _. split; [done|]. split; [done|].
    intros t Hne. simpl. by rewrite !fn_lookup_insert_ne.
  - exists [Step o]. replay.
    eexists _, _. split; [done|]. split; [done|].
    intros t Hne. simpl. by rewrite !fn_lookup_insert_ne.
Qed.

(** Whatever the other threads are doing, a thread that is not inside a
    call can get its [push] through: at most the owner of the mutex has to
    leave its critical section first. *)
Lemma push_can_complete s h p elem :
  reachable s h → threads s p = Idle →
  ∃ sched w s' evs,
    run (sched ++ call_push p elem w) s = Some (s', evs)
    ∧ logical_state s' = NON_EMPTY
    ∧ m_mutex s' = None ∧ threads s' p = Idle.
Proof.
  intros Hreach Hp.
  assert (∃ sched s1 evs1,
            run sched s = Some (s1, evs1) ∧ m_mutex s1 = None
            ∧ threads s1 p = Idle) as (sched & s1 & evs1 & Hrun1 & Hmu1 & Hp1).
  { destruct (m_mutex s) as [o|] eqn:Hmu; [|by exists [], s, []].
    pose proof (reachable_owned _ _ Hreach o Hmu) as Hh.
    destruct (owner_releases s o) as (sched & s1 & evs1 & Hrun & Hmu1 & Hoth);
      [by eapply reachable_inv|done..|].
    exists sched, s1, evs1. repeat split; [done..|].
    rewrite Hoth; [done|]. intros ->. by rewrite Hp in Hh. }
  assert (∃ w, may_wake w s1) as [w Hw].
  { destruct (decide (m_cv s1 = ∅)) as [Hcv|Hcv]; [by exists None|].
    apply set_choose_L in Hcv as [w Hw]. by exists (Some w). }
  destruct (solo_push p elem w s1) as (s' & Hrun' & Hq' & Hmu' & _ & Hth');
    [done..|].
  eexists sched, w, s', _. rewrite run_app, Hrun1, Hrun'.
  repeat split; [|done|by rewrite Hth'].
  unfold logical_state. rewrite Hq'. by destruct (m_queue s1).
Qed.


End liveness.

(** * The specification's properties *)

Section properties.
Context {T : Type}.
Implicit Types (s : state (T:=T)) (t : tid).

(** C1, FIFO order.  In a state reached by any execution, let a thread that
    is not inside a call push [elems] one after the other while no other
    thread is suspended or holds the mutex.  All the calls return, the
    buffer becomes its old content followed by [elems] in call order, so
    that the buffer is always the insertion history without the elements
    already removed; and if the buffer was empty, [length elems] calls of
    [pop] all return, yielding [elems] in exactly that order and leaving
    the buffer empty. *)
Theorem fifo_order t elems s h :
  reachable s h → m_mutex s = None → m_cv s = ∅ → threads s t = Idle →
  ∃ s1 evs1,
    run (pushes t elems) s = Some (s1, evs1)
    ∧ inserted evs1 = elems
    ∧ m_queue s1 = m_queue s ++ elems
    ∧ inserted (h ++ evs1) = removed h ++ m_queue s1
    ∧ (m_queue s = [] →
       ∃ s2 evs2,
         run (pops t (length elems)) s1 = Some (s2, evs2)
         ∧ results evs2 = map v_elem elems
         ∧ m_queue s2 = []).
Proof.
  intros Hreach Hmu Hcv Ht.
  destruct (solo_pushes t elems s Hmu Ht Hcv)
    as (s1 & evs1 & Hrun1 & Hins & Hrem & _ & Hq1 & Hmu1 & _ & Hth1).
  exists s1, evs1. repeat split; try done.
  - destruct (reachable_hist _ _ (reachable_run _ _ _ _ _ Hreach Hrun1))
      as [Hb _].
    by rewrite Hb, removed_app, Hrem, app_nil_r.
  - intros Hq. rewrite Hq in Hq1. simpl in Hq1.
    destruct (solo_pops t elems [] s1)
      as (s2 & evs2 & Hrun2 & _ & _ & Hres & Hq2 & _);
      [done | by rewrite Hth1 | by rewrite app_nil_r |].
    by exists s2, evs2.
Qed.

(** C2, no loss and no duplication.  In every execution, by any number of
    threads, the elements inserted so far are, in insertion order and each
    exactly once, those already returned by [pop] calls, the one a [pop]
    has taken and is about to return, and the content of the buffer.
    Hence, when as many [pop] calls have returned as elements were pushed,
    the returned elements are a permutation of the pushed ones and nothing
    is left behind. *)
Theorem no_loss_no_duplication s evs :
  reachable s evs →
  inserted evs = removed evs ++ m_queue s
  ∧ removed evs = returned evs ++ in_flight s
  ∧ (length (returned evs) = length (inserted evs) →
     returned evs ≡ₚ inserted evs ∧ m_queue s = [] ∧ in_flight s = []).
Proof.
  intros Hreach. destruct (reachable_hist _ _ Hreach) as [Hb Hr].
  split; [done|]. split; [done|]. intros Hlen.
  rewrite Hb, Hr, !length_app in Hlen.
  assert (in_flight s = [] ∧ m_queue s = []) as [Hf Hq]
    by (split; apply length_zero_iff_nil; lia).
  by rewrite Hb, Hr, Hf, Hq, !app_nil_r.
Qed.


(** C4, snapshot consistency.  On a queue that has just been constructed,
    after exactly [k] calls of [push] and no [pop], [size()] returns [k]
    and [empty()] returns whether [k] is 0: [true] right after
    construction, [false] for every [k > 0]. *)
Theorem snapshot_consistency t elems k :
  length elems = k →
  ∃ s evs,
    run (pushes t elems ++ call_size t ++ call_empty t) construct
      = Some (s, evs)
    ∧ results evs
      = replicate k v_void ++ [v_size k; v_bool (Nat.eqb k 0)]
    ∧ m_queue s = elems.
Proof.
  intros <-.
  destruct (solo_pushes t elems construct)
    as (s1 & evs1 & Hrun1 & _ & _ & Hres1 & Hq1 & Hmu1 & _ & Hth1);
    [done..|].
  destruct (solo_size t s1) as (s2 & Hrun2 & Hq2 & Hmu2 & _ & Hth2);
    [done | by rewrite Hth1 |].
  destruct (solo_empty t s2) as (s3 & Hrun3 & Hq3 & _);
    [done | by rewrite Hth2, Hth1 |].
  eexists s3, _. rewrite run_app, Hrun1, run_app, Hrun2, Hrun3.
  split; [done|]. rewrite !results_app, Hres1. simpl.
  rewrite Hq3, Hq2, Hq1. simpl. split; [|done].
  by destruct elems.
Qed.

(** C5, state machine.  A queue is [EMPTY] or [NON_EMPTY].  From a state
    where the mutex is free and [t] is not inside a call: [push] always
    completes and ends in [NON_EMPTY], from either state; [pop] completes
    in [NON_EMPTY] and ends in [EMPTY] exactly when it removed the last
    element.  In [EMPTY] a [pop] does not complete: the caller is suspended
    in [wait] with the mutex released, the queue stays [EMPTY] and nobody
    else is affected; a [push] by any other thread then completes, and the
    suspended [pop] returns the pushed element and leaves the queue
    [EMPTY], with the mutex free.  After each completed call the mutex is
    free and [t] is outside any call again, so the next call can be made.
    No state is terminal: in every state of every execution no thread has
    run into undefined behaviour, and every thread that is not inside a
    call can complete a [push], after at most the owner of the mutex has
    left its critical section. *)
Theorem state_machine t s :
  m_mutex s = None → threads s t = Idle →
  (logical_state s = EMPTY ∨ logical_state s = NON_EMPTY)
  ∧ (∀ elem w, may_wake w s →
       ∃ s' evs, run (call_push t elem w) s = Some (s', evs)
         ∧ logical_state s' = NON_EMPTY
         ∧ m_mutex s' = None ∧ threads s' t = Idle)
  ∧ (logical_state s = NON_EMPTY →
       ∃ s' evs, run (call_pop t) s = Some (s', evs)
         ∧ logical_state s'
           = (if decide (length (m_queue s) = 1) then EMPTY else NON_EMPTY)
         ∧ m_mutex s' = None ∧ threads s' t = Idle)
  ∧ (logical_state s = EMPTY → run (call_pop t) s = None)
  ∧ (logical_state s = EMPTY →
       ∃ s', run [Call t m_pop; Step t; Step t] s = Some (s', [])
         ∧ threads s' t = PopWait ∧ m_cv s' = {[t]} ∪ m_cv s
         ∧ m_mutex s' = None ∧ logical_state s' = EMPTY
         ∧ step t s' = None
         ∧ (∀ t', t' ≠ t → threads s' t' = threads s t')
         ∧ ∀ p elem, threads s p = Idle → p ≠ t →
             ∃ s'',
               run (call_push p elem (Some t) ++ steps t 5) s'
                 = Some (s'', [EvInsert p elem; EvReturn p v_void;
                               EvRemove t elem; EvReturn t (v_elem elem)])
               ∧ logical_state s'' = EMPTY
               ∧ m_mutex s'' = None ∧ threads s'' t = Idle)
  ∧ (∀ s0 h0 t0, reachable s0 h0 → threads s0 t0 ≠ Undefined)
  ∧ (∀ s0 h0 p elem,
       reachable s0 h0 → threads s0 p = Idle →
       ∃ sched w s' evs,
         run (sched ++ call_push p elem w) s0 = Some (s', evs)
         ∧ logical_state s' = NON_EMPTY
         ∧ m_mutex s' = None ∧ threads s' p = Idle).
Proof.
  intros Hmu Ht. unfold logical_state.
  split; [destruct (m_queue s); auto|].
  split.
  { intros elem w Hw.
    destruct (solo_push t elem w s) as (s' & Hrun & Hq' & Hmu' & _ & Hth');
      [done..|].
    eexists s', _. repeat split; [done| |done|by rewrite Hth'].
    rewrite Hq'. by destruct (m_queue s). }
  split.
  { intros Hne. destruct (m_queue s) as [|x q] eqn:Hq; [done|].
    destruct (solo_pop t x q s) as (s' & Hrun & Hq' & Hmu' & _ & Hth');
      [done..|].
    eexists s', _. repeat split; [done| |done|by rewrite Hth'].
    rewrite Hq'. simpl. by destruct q. }
  split.
  { intros He. destruct (m_queue s) as [|x q] eqn:Hq; [|done].
    unfold call_pop. replay.
    rewrite decide_True; [done | apply suspended_self]. }
  split.
  { intros He. destruct (m_queue s) as [|x q] eqn:Hq; [|done].
    destruct (solo_pop_blocks t s)
      as (s' & Hrun & Hq' & Hmu' & Hcv' & Hth' & Hst'); [done..|].
    assert (∀ t', t' ≠ t → threads s' t' = threads s t') as Hoth.
    { revert Hrun. replay. intros Hrun. simplify_eq.
      intros t' Hne. simpl. by rewrite !fn_lookup_insert_ne. }
    exists s'. repeat split; [done..|by rewrite Hq'|done|done|].
    intros p elem Hp Hne.
    destruct (solo_push p elem (Some t) s')
      as (s1 & Hrun1 & Hq1 & Hmu1 & Hcv1 & Hth1);
      [done | by rewrite Hoth | simpl; rewrite Hcv'; apply suspended_self |].
    rewrite Hq' in Hq1. simpl in Hq1, Hcv1.
    destruct (woken_takes_head t elem [] s1)
      as (s2 & Hrun2 & Hq2 & Hth2 & Hmu2);
      [done | by rewrite Hth1 | rewrite Hcv1; apply unblocked_gone | done |].
    exists s2. rewrite run_app, Hrun1, Hrun2.
    repeat split; [by rewrite Hq2|done..]. }
  split.
  { intros s0 h0 t0 Hreach.
    by destruct (reachable_inv _ _ Hreach) as [_ _ _ _ Hd]. }
  intros s0 h0 p elem. apply push_can_complete.
Qed.

(** C6, [pop] removes an element only from a non-empty buffer.  In every
    state of every execution: a thread about to read the front finds the
    buffer non-empty and reads its head; a thread about to discard the
    front discards exactly the element it has read; no thread has ever
    accessed an empty buffer.  The wait is a loop: a suspended thread that
    is unblocked goes back to the predicate, and the predicate evaluated
    on an empty buffer suspends it again. *)
Theorem pop_only_from_nonempty s evs t :
  reachable s evs →
  (threads s t = PopFront →
     ∃ x q, m_queue s = x :: q
       ∧ step t s = Some (goto t (PopPop x) s, []))
  ∧ (∀ elem, threads s t = PopPop elem →
     ∃ q, m_queue s = elem :: q
       ∧ step t s = Some (goto t (PopUnlock elem) (with_queue q s),
                          [EvRemove t elem]))
  ∧ threads s t ≠ Undefined
  ∧ (threads s t = PopWait →
     ∀ s' evs', step t s = Some (s', evs') →
       threads s' t = PopCheck ∧ evs' = [] ∧ m_queue s' = m_queue s)
  ∧ (threads s t = PopCheck → m_queue s = [] →
     ∃ s', step t s = Some (s', [])
       ∧ threads s' t = PopWait ∧ t ∈ m_cv s' ∧ m_queue s' = []).
Proof.
  intros Hreach. destruct (reachable_inv _ _ Hreach) as [_ _ Hf Hp Hd].
  split; [|split; [|split; [|split]]].
  - intros Ht. specialize (Hf t Ht).
    destruct (m_queue s) as [|x q] eqn:Hq; [done|].
    exists x, q. split; [done|]. unfold step. by rewrite Ht, Hq.
  - intros elem Ht. specialize (Hp t elem Ht).
    destruct (m_queue s) as [|x q] eqn:Hq; simplify_eq/=.
    exists q. split; [done|]. unfold step. by rewrite Ht, Hq.
  - apply Hd.
  - intros Ht s' evs' Hstep. unfold step, acquire in Hstep.
    rewrite Ht in Hstep. repeat case_match; simplify_eq.
    simpl. by rewrite fn_lookup_insert.
  - intros Ht Hq. unfold step. rewrite Ht, Hq. simpl.
    eexists. split; [done|]. simpl. rewrite fn_lookup_insert.
    repeat split; [apply suspended_self | done].
Qed.

(** C8, frame of [push] and [pop].  Called where the mutex is free by a
    thread outside any call, [push(elem)] makes the buffer its old content
    followed by [elem]: every element keeps its position and [elem] is
    last; [pop] on a buffer [x :: q] returns [x] and leaves [q].  More
    generally, over any stretch of any execution from a reachable state
    the buffer changes only by the elements inserted at its tail and the
    elements removed from its head. *)
Theorem push_pop_frame t s h :
  reachable s h → m_mutex s = None → threads s t = Idle →
  (∀ elem w, may_wake w s →
     ∃ s' evs, run (call_push t elem w) s = Some (s', evs)
       ∧ m_queue s' = m_queue s ++ [elem]
       ∧ (∀ i x, m_queue s !! i = Some x → m_queue s' !! i = Some x)
       ∧ m_queue s' !! length (m_queue s) = Some elem
       ∧ length (m_queue s') = S (length (m_queue s)))
  ∧ (∀ x q, m_queue s = x :: q →
     ∃ s' evs, run (call_pop t) s = Some (s', evs)
       ∧ results evs = [v_elem x]
       ∧ m_queue s' = q)
  ∧ (∀ sched s' evs, run sched s = Some (s', evs) →
     m_queue s ++ inserted evs = removed evs ++ m_queue s').
Proof.
  intros Hreach Hmu Ht. repeat split.
  - intros elem w Hw.
    destruct (solo_push t elem w s) as (s' & Hrun & Hq' & _); [done..|].
    eexists s', _. rewrite Hq'. repeat split; [done..| | |].
    + intros i x Hi. by apply lookup_app_l_Some.
    + by rewrite lookup_app_r, Nat.sub_diag.
    + rewrite length_app. simpl. lia.
  - intros x q Hq.
    destruct (solo_pop t x q s) as (s' & Hrun & Hq' & _); [done..|].
    by eexists s', _.
  - intros sched s' evs Hrun. by eapply run_frame.
Qed.

(** C9, the observers are pure snapshots.  Called where the mutex is free
    by a thread outside any call, [empty()] returns whether the buffer has
    no element and [size()] returns its length, and both leave the buffer,
    the mutex, the wait set and every thread as they found them.  In any
    state, no statement executed inside [empty()] or [size()] changes the
    buffer. *)
Theorem observers_are_pure t s :
  m_mutex s = None → threads s t = Idle →
  (∃ s', run (call_empty t) s
           = Some (s', [EvReturn t (v_bool (StdQueue.empty (m_queue s)))])
         ∧ m_queue s' = m_queue s ∧ m_mutex s' = m_mutex s
         ∧ m_cv s' = m_cv s ∧ ∀ t', threads s' t' = threads s t')
  ∧ (∃ s', run (call_size t) s
           = Some (s', [EvReturn t (v_size (length (m_queue s)))])
         ∧ m_queue s' = m_queue s ∧ m_mutex s' = m_mutex s
         ∧ m_cv s' = m_cv s ∧ ∀ t', threads s' t' = threads s t')
  ∧ (∀ t0 s0 s' evs,
       observing (threads s0 t0) = true → step t0 s0 = Some (s', evs) →
       m_queue s' = m_queue s0).
Proof.
  intros Hmu Ht. repeat split.
  - destruct (solo_empty t s) as (s' & ? & ? & ? & ? & ?); [done..|].
    exists s'. by rewrite Hmu.
  - destruct (solo_size t s) as (s' & ? & ? & ? & ? & ?); [done..|].
    exists s'. by rewrite Hmu.
  - intros t0 s0 s' evs Hobs Hstep.
    by destruct (observer_steps _ _ _ _ Hobs Hstep).
Qed.

(** C10, observer agreement.  Called on the same state, and also one
    right after the other, [empty()] returns [true] if and only if
    [size()] returns 0. *)
Theorem observer_agreement t s :
  m_mutex s = None → threads s t = Idle →
  ∃ b n s1 s2 s3,
    run (call_empty t) s = Some (s1, [EvReturn t (v_bool b)])
    ∧ run (call_size t) s = Some (s2, [EvReturn t (v_size n)])
    ∧ run (call_empty t ++ call_size t) s
      = Some (s3, [EvReturn t (v_bool b); EvReturn t (v_size n)])
    ∧ (b = true ↔ n = 0).
Proof.
  intros Hmu Ht.
  destruct (solo_empty t s) as (s1 & Hrun1 & Hq1 & Hmu1 & _ & Hth1);
    [done..|].
  destruct (solo_size t s) as (s2 & Hrun2 & _); [done..|].
  destruct (solo_size t s1) as (s3 & Hrun3 & _);
    [done | by rewrite Hth1 |].
  eexists _, _, s1, s2, s3. rewrite run_app, Hrun1, Hrun3, Hq1.
  repeat split; try done.
  all: destruct (m_queue s); simpl; done.
Qed.
End properties.

(** * The properties on concrete executions of [blocking_queue<nat>] *)

Section concrete.
Import Demo.
(** The constructed queue is the start of every execution. *)
Lemma fresh_reachable : reachable fresh [].
Proof. by exists []. Qed.

(** [fifo_order] on the fresh queue: thread 0 pushes 1, 2, 3 and pops three
    times. *)
Lemma fifo_order_witness :
  ∃ s1 evs1,
    run (pushes 0 [1; 2; 3]) fresh = Some (s1, evs1)
    ∧ inserted evs1 = [1; 2; 3]
    ∧ m_queue s1 = [1; 2; 3]
    ∧ inserted evs1 = m_queue s1
    ∧ (m_queue fresh = [] →
       ∃ s2 evs2,
         run (pops 0 3) s1 = Some (s2, evs2)
         ∧ results evs2 = [v_elem 1; v_elem 2; v_elem 3]
         ∧ m_queue s2 = []).
Proof.
  apply (fifo_order 0 [1; 2; 3] fresh []);
    [apply fresh_reachable | reflexivity..].
Defined.

(** [no_loss_no_duplication] at the end of [Demo.interleaved]: two elements
    pushed by two threads, two returned to two other threads. *)
Lemma no_loss_no_duplication_witness :
  length (returned (trace Demo.interleaved fresh)) = 2
  ∧ returned (trace Demo.interleaved fresh)
    ≡ₚ inserted (trace Demo.interleaved fresh)
  ∧ m_queue (final Demo.interleaved fresh) = [].
Proof.
  split; [reflexivity|].
  destruct (no_loss_no_duplication (final Demo.interleaved fresh)
              (trace Demo.interleaved fresh)) as (_ & _ & Hperm).
  - apply reachable_final. vm_compute. eexists. reflexivity.
  - destruct Hperm as (? & ? & _); [reflexivity|]. by split.
Defined.


(** [snapshot_consistency] after two pushes. *)
Lemma snapshot_consistency_witness :
  ∃ s evs,
    run (pushes 0 [4; 5] ++ call_size 0 ++ call_empty 0) fresh
      = Some (s, evs)
    ∧ results evs = [v_void; v_void; v_size 2; v_bool false]
    ∧ m_queue s = [4; 5].
Proof. apply (snapshot_consistency 0 [4; 5] 2). reflexivity. Defined.

(** [state_machine] in the state holding the single element 8, and on the
    fresh queue, where a [pop] suspends its caller. *)
Lemma state_machine_witness :
  (∃ s', run [Call 0 m_pop; Step 0; Step 0] fresh = Some (s', [])
     ∧ threads s' 0 = PopWait ∧ m_cv s' = {[0]} ∪ m_cv fresh
     ∧ m_mutex s' = None ∧ logical_state s' = EMPTY
     ∧ step 0 s' = None)
  ∧
  let s := final (pushes 0 [8]) fresh in
  (logical_state s = EMPTY ∨ logical_state s = NON_EMPTY)
  ∧ (∀ elem w, may_wake w s →
       ∃ s' evs, run (call_push 0 elem w) s = Some (s', evs)
         ∧ logical_state s' = NON_EMPTY
         ∧ m_mutex s' = None ∧ threads s' 0 = Idle)
  ∧ (logical_state s = NON_EMPTY →
       ∃ s' evs, run (call_pop 0) s = Some (s', evs)
         ∧ logical_state s' = EMPTY
         ∧ m_mutex s' = None ∧ threads s' 0 = Idle)
  ∧ (logical_state s = EMPTY → run (call_pop 0) s = None)
  ∧ (logical_state s = EMPTY →
       ∃ s', run [Call 0 m_pop; Step 0; Step 0] s = Some (s', [])
         ∧ threads s' 0 = PopWait ∧ m_cv s' = {[0]} ∪ m_cv s
         ∧ m_mutex s' = None ∧ logical_state s' = EMPTY
         ∧ step 0 s' = None
         ∧ (∀ t', t' ≠ 0 → threads s' t' = threads s t')
         ∧ ∀ p elem, threads s p = Idle → p ≠ 0 →
             ∃ s'',
               run (call_push p elem (Some 0) ++ steps 0 5) s'
                 = Some (s'', [EvInsert p elem; EvReturn p v_void;
                               EvRemove 0 elem; EvReturn 0 (v_elem elem)])
               ∧ logical_state s'' = EMPTY
               ∧ m_mutex s'' = None ∧ threads s'' 0 = Idle)
  ∧ (∀ (s0 : state (T:=nat)) h0 t0,
       reachable s0 h0 → threads s0 t0 ≠ Undefined)
  ∧ (∀ (s0 : state (T:=nat)) h0 p elem,
       reachable s0 h0 → threads s0 p = Idle →
       ∃ sched w s' evs,
         run (sched ++ call_push p elem w) s0 = Some (s', evs)
         ∧ logical_state s' = NON_EMPTY
         ∧ m_mutex s' = None ∧ threads s' p = Idle).
Proof.
  split.
  - destruct (state_machine 0 fresh eq_refl eq_refl)
      as (_ & _ & _ & _ & Hsuspends & _).
    destruct (Hsuspends eq_refl) as (s' & ? & ? & ? & ? & ? & ? & _).
    by exists s'.
  - apply (state_machine 0 (final (pushes 0 [8]) fresh)); reflexivity.
Defined.

(** [pop_only_from_nonempty] where thread 1 is about to read the front. *)
Lemma pop_only_from_nonempty_witness :
  let s := final Demo.at_front fresh in
  (threads s 1 = PopFront →
     ∃ x q, m_queue s = x :: q
       ∧ step 1 s = Some (goto 1 (PopPop x) s, []))
  ∧ (∀ elem, threads s 1 = PopPop elem →
     ∃ q, m_queue s = elem :: q
       ∧ step 1 s = Some (goto 1 (PopUnlock elem) (with_queue q s),
                          [EvRemove 1 elem]))
  ∧ threads s 1 ≠ Undefined
  ∧ (threads s 1 = PopWait →
     ∀ s' evs', step 1 s = Some (s', evs') →
       threads s' 1 = PopCheck ∧ evs' = [] ∧ m_queue s' = m_queue s)
  ∧ (threads s 1 = PopCheck → m_queue s = [] →
     ∃ s', step 1 s = Some (s', [])
       ∧ threads s' 1 = PopWait ∧ 1 ∈ m_cv s' ∧ m_queue s' = []).
Proof.
  apply (pop_only_from_nonempty (final Demo.at_front fresh)
           (trace Demo.at_front fresh) 1).
  apply reachable_final. vm_compute. eexists. reflexivity.
Defined.

(** [push_pop_frame] for thread 1 on the buffer [8; 9]. *)
Lemma push_pop_frame_witness :
  let s := final (pushes 0 [8; 9]) fresh in
  (∀ elem w, may_wake w s →
     ∃ s' evs, run (call_push 1 elem w) s = Some (s', evs)
       ∧ m_queue s' = [8; 9; elem]
       ∧ (∀ i x, m_queue s !! i = Some x → m_queue s' !! i = Some x)
       ∧ m_queue s' !! 2 = Some elem
       ∧ length (m_queue s') = 3)
  ∧ (∀ x q, m_queue s = x :: q →
     ∃ s' evs, run (call_pop 1) s = Some (s', evs)
       ∧ results evs = [v_elem x]
       ∧ m_queue s' = q)
  ∧ (∀ sched s' evs, run sched s = Some (s', evs) →
     m_queue s ++ inserted evs = removed evs ++ m_queue s').
Proof.
  apply (push_pop_frame 1 (final (pushes 0 [8; 9]) fresh)
           (trace (pushes 0 [8; 9]) fresh)).
  - apply reachable_final. vm_compute. eexists. reflexivity.
  - reflexivity.
  - reflexivity.
Defined.

(** [observers_are_pure] for thread 1 on the buffer [8; 9]. *)
Lemma observers_are_pure_witness :
  let s := final (pushes 0 [8; 9]) fresh in
  (∃ s', run (call_empty 1) s = Some (s', [EvReturn 1 (v_bool false)])
         ∧ m_queue s' = m_queue s ∧ m_mutex s' = m_mutex s
         ∧ m_cv s' = m_cv s ∧ ∀ t', threads s' t' = threads s t')
  ∧ (∃ s', run (call_size 1) s = Some (s', [EvReturn 1 (v_size 2)])
         ∧ m_queue s' = m_queue s ∧ m_mutex s' = m_mutex s
         ∧ m_cv s' = m_cv s ∧ ∀ t', threads s' t' = threads s t')
  ∧ (∀ t0 (s0 : state (T:=nat)) s' evs,
       observing (threads s0 t0) = true → step t0 s0 = Some (s', evs) →
       m_queue s' = m_queue s0).
Proof.
  apply (observers_are_pure 1 (final (pushes 0 [8; 9]) fresh));
    reflexivity.
Defined.

(** [observer_agreement] for thread 1 on the buffer [8; 9]. *)
Lemma observer_agreement_witness :
  let s := final (pushes 0 [8; 9]) fresh in
  ∃ b n s1 s2 s3,
    run (call_empty 1) s = Some (s1, [EvReturn 1 (v_bool b)])
    ∧ run (call_size 1) s = Some (s2, [EvReturn 1 (v_size n)])
    ∧ run (call_empty 1 ++ call_size 1) s
      = Some (s3, [EvReturn 1 (v_bool b); EvReturn 1 (v_size n)])
    ∧ (b = true ↔ n = 0).
Proof.
  apply (observer_agreement 1 (final (pushes 0 [8; 9]) fresh));
    reflexivity.
Defined.
End concrete.


(** * Further properties of the monitor *)

Section monitor_facts.
Context {T : Type}.
Implicit Types (s : state (T:=T)) (t : tid).

Lemma size_remove_one (A : gset tid) t : size A ≤ S (size (A ∖ {[t]})).
Proof.
  destruct (decide (t ∈ A)) as [Hin|Hout].
  - rewrite (size_difference A {[t]}), size_singleton.
    + assert (size A ≠ 0); [|lia].
      apply size_non_empty_iff. intros Heq. rewrite Heq in Hin.
      by apply not_elem_of_empty in Hin.
    + by apply singleton_subseteq_l.
  - assert (A ∖ {[t]} = A) as ->; [|lia].
    apply set_eq. intros x. rewrite elem_of_difference, elem_of_singleton.
    split; [by intros [? _]|]. intros Hx. split; [done|]. by intros ->.
Qed.

Lemma perform_exact a s s' evs :
  inv s → exact s → perform a s = Some (s', evs) → exact s'.
Proof.
  intros [Hm _ _ _ _] Hex Hstep.
  destruct a as [t m|t|t w|w]; simpl in Hstep.
  - destruct (threads s t) eqn:Ht; simplify_eq.
    intros t'. destruct (Hex t') as [Hb Hn].
    split; intros x; simpl; same_or_other t t'; eauto.
    all: by destruct m.
  - unfold step, acquire, release in Hstep.
    pose proof (Hm t) as Hmt.
    destruct (threads s t) eqn:Ht; simpl in *;
      repeat case_match; simplify_eq.
    all: intros t'; destruct (Hex t') as [Hb Hn]; pose proof (Hm t') as Hmt'.
    all: split; intros x; simpl; same_or_other t t'; try done; eauto.
    all: try (intros Ht'; rewrite Ht' in Hmt'; simpl in Hmt';
              use_premises; congruence).
    all: try congruence.
  - destruct (threads s t) eqn:Ht; repeat case_match; simplify_eq.
    intros t'. destruct (Hex t') as [Hb Hn].
    split; intros x; simpl; same_or_other t t'; eauto; done.
  - case_match; simplify_eq. done.
Qed.
Lemma exact_construct : exact (construct (T:=T)).
Proof. intros t. by split. Qed.

Lemma reachable_exact s evs : reachable s evs → exact s.
Proof.
  intros [sched Hrun].
  assert (∀ s0 evs0, inv s0 → exact s0 →
            run sched s0 = Some (s, evs0) → exact s) as Hgen.
  { clear Hrun evs. induction sched as [|a sched IH];
      intros s0 evs0 Hi Hex Hrun; simpl in Hrun; [by simplify_eq|].
    destruct (perform a s0) as [[s1 evs1]|] eqn:Ha; [|done].
    destruct (run sched s1) as [[s2 evs2]|] eqn:Hr; simplify_eq.
    eauto using perform_inv, perform_exact. }
  eauto using inv_construct, exact_construct.
Qed.

Lemma covered_construct : covered (construct (T:=T)).
Proof.
  exists ∅. split; [|done]. intros t Ht. by apply not_elem_of_empty in Ht.
Qed.

Lemma perform_covered a s s' evs :
  inv s → covered s → perform a s = Some (s', evs) → covered s'.
Proof.
  intros [Hm Hc Hf Hp Hd] (A & HA & Hbound) Hstep.
  destruct a as [t m|t|t w|w]; simpl in Hstep.
  - destruct (threads s t) eqn:Ht; simplify_eq.
    exists A. split.
    + intros t' Ht'. destruct (HA t' Ht') as [Htk Hncv]. simpl.
      same_or_other t t'; [|done]. by rewrite Ht in Htk.
    + unfold unannounced in *. simpl.
      destruct (m_mutex s) as [o|]; [|done].
      same_or_other t o; [|done]. rewrite Ht in Hbound. intros Hne.
      specialize (Hbound Hne). destruct m; simpl; lia.
  - unfold step, acquire, release in Hstep.
    pose proof (Hm t) as Hmt. pose proof (Hf t) as Hft.
    pose proof (Hp t) as Hpt. pose proof (Hc t) as Hct.
    destruct (threads s t) eqn:Ht; simpl in *;
      repeat case_match; simplify_eq; use_premises.
    all: try (exists A; split;
      [ intros t' Ht'; destruct (HA t' Ht') as [Htk Hncv]; simpl;
        same_or_other t t'; rewrite ?Ht in Htk; done
      | unfold unannounced in *; simpl in *;
        repeat match goal with
        | H : m_mutex _ = _ |- _ => rewrite H in *
        end;
        rewrite ?fn_lookup_insert, ?Ht in *; simpl in *;
        unfold StdQueue.push; rewrite ?length_app; simpl; intros Hne;
        use_premises; first [done | lia] ]).
    + (* the predicate fails: the caller is suspended *)
      exists (A ∖ {[t]}). split.
      * intros t' [Ht' Hne]%elem_of_difference.
        rewrite elem_of_singleton in Hne.
        destruct (HA t' Ht') as [Htk Hncv]. simpl.
        rewrite fn_lookup_insert_ne by done. split; [done|].
        rewrite elem_of_union, elem_of_singleton. by intros [?|?].
      * intros _. simpl. destruct (m_queue s); simplify_eq/=; lia.
    + destruct (m_queue s); simplify_eq/=.
    + (* the head is removed *)
      exists (A ∖ {[t]}). split.
      * intros t' [Ht' Hne]%elem_of_difference.
        rewrite elem_of_singleton in Hne.
        destruct (HA t' Ht') as [Htk Hncv]. simpl.
        by rewrite fn_lookup_insert_ne.
      * unfold unannounced in *. simpl in *. rewrite Hmt, Ht in Hbound.
        rewrite Hmt, fn_lookup_insert. intros Hne. specialize (Hbound Hne).
        destruct (m_queue s) as [|x q]; simplify_eq/=.
        pose proof (size_remove_one A t). lia.
    + destruct (m_queue s); simplify_eq/=.
  - pose proof (Hm t) as Hmt. pose proof (Hc w) as Hcw.
    destruct (threads s t) eqn:Ht; repeat case_match; simplify_eq.
    use_premises. simpl in Hmt. specialize (Hmt eq_refl).
    exists (A ∪ {[w]}). split.
    + intros t' [Ht'|Ht']%elem_of_union; simpl.
      * destruct (HA t' Ht') as [Htk Hncv].
        same_or_other t t'; [by rewrite Ht in Htk|]. split; [done|].
        rewrite elem_of_difference. by intros [? _].
      * apply elem_of_singleton in Ht' as ->.
        assert (t ≠ w) by (intros ->; congruence).
        rewrite fn_lookup_insert_ne, Hcw by done. split; [done|].
        apply unblocked_gone.
    + intros _. unfold unannounced in *. simpl in *.
      rewrite Hmt, Ht in Hbound. rewrite Hmt, fn_lookup_insert.
      assert (m_cv s ≠ ∅) as Hne.
      { intros Heq.
        assert (w ∈ (∅ : gset tid)) as Hw by (by rewrite <- Heq).
        by apply not_elem_of_empty in Hw. }
      specialize (Hbound Hne).
      rewrite size_union, size_singleton; [lia|].
      intros x Hx ->%elem_of_singleton. by destruct (HA w Hx).
  - case_match; simplify_eq.
    exists A. split.
    + intros t' Ht'. destruct (HA t' Ht') as [Htk Hncv]. simpl.
      split; [done|]. rewrite elem_of_difference. by intros [? _].
    + simpl. unfold unannounced in *. simpl. intros Hne. apply Hbound.
      intros Heq. rewrite Heq in Hne. apply Hne.
      apply set_eq. intros x. rewrite elem_of_difference.
      split; [intros [Hx _]|intros Hx]; by apply not_elem_of_empty in Hx.
Qed.

Lemma reachable_covered s evs : reachable s evs → covered s.
Proof.
  intros [sched Hrun].
  assert (∀ s0 evs0, inv s0 → covered s0 →
            run sched s0 = Some (s, evs0) → covered s) as Hgen.
  { clear Hrun evs. induction sched as [|a sched IH];
      intros s0 evs0 Hi Hco Hrun; simpl in Hrun; [by simplify_eq|].
    destruct (perform a s0) as [[s1 evs1]|] eqn:Ha; [|done].
    destruct (run sched s1) as [[s2 evs2]|] eqn:Hr; simplify_eq.
    eauto using perform_inv, perform_covered. }
  eauto using inv_construct, covered_construct.
Qed.

(** X1, mutual exclusion.  In every state of every execution at most one
    thread is between the acquisition and the release of the mutex; that
    thread is the owner recorded in the mutex and is not suspended. *)
Theorem mutual_exclusion s evs t1 t2 :
  reachable s evs →
  holds (threads s t1) = true → holds (threads s t2) = true →
  t1 = t2 ∧ m_mutex s = Some t1 ∧ t1 ∉ m_cv s.
Proof.
  intros Hreach H1 H2. destruct (reachable_inv _ _ Hreach) as [Hm Hc _ _ _].
  pose proof (Hm t1 H1) as Ho1. pose proof (Hm t2 H2) as Ho2.
  repeat split; [congruence | done |].
  intros Hin. rewrite (Hc t1 Hin) in H1. done.
Qed.

(** X2, the buffer changes only under the lock.  In every execution, an
    action that changes the buffer is a statement of the thread that owns
    the mutex, and that thread still owns it afterwards. *)
Theorem buffer_changes_under_lock s evs a s' evs' :
  reachable s evs → perform a s = Some (s', evs') →
  m_queue s' ≠ m_queue s →
  ∃ t, a = Step t ∧ m_mutex s = Some t ∧ m_mutex s' = Some t.
Proof.
  intros Hreach Hstep Hneq.
  destruct (reachable_inv _ _ Hreach) as [Hm _ _ _ _].
  destruct a as [t m|t|t w|w]; simpl in Hstep.
  - destruct (threads s t); by simplify_eq.
  - exists t. split; [done|]. pose proof (Hm t) as Hmt.
    unfold step, acquire, release in Hstep.
    destruct (threads s t); simpl in *; repeat case_match; simplify_eq;
      use_premises; done.
  - destruct (threads s t); repeat case_match; by simplify_eq.
  - case_match; by simplify_eq.
Qed.

(** X3, exact snapshots.  In every execution, also a concurrent one, the
    value with which [size()] returns is the number of elements in the
    buffer at the instant the call releases the mutex, and the value with
    which [empty()] returns tells whether the buffer is empty at that
    instant; the return leaves the buffer as it is. *)
Theorem observers_exact s evs a s' evs' t :
  reachable s evs → perform a s = Some (s', evs') →
  (∀ n, EvReturn t (v_size n) ∈ evs' →
     n = length (m_queue s) ∧ m_queue s' = m_queue s)
  ∧ (∀ b, EvReturn t (v_bool b) ∈ evs' →
     b = StdQueue.empty (m_queue s) ∧ m_queue s' = m_queue s).
Proof.
  intros Hreach Hstep.
  pose proof (reachable_exact _ _ Hreach) as Hex.
  assert (∀ v, EvReturn t v ∈ evs' →
            a = Step t ∧ m_queue s' = m_queue s
            ∧ ((v = v_void ∧ threads s t = PushUnlock)
               ∨ (∃ e, v = v_elem e ∧ threads s t = PopUnlock e)
               ∨ (∃ b, v = v_bool b ∧ threads s t = EmptyUnlock b)
               ∨ (∃ n, v = v_size n ∧ threads s t = SizeUnlock n)))
    as Hret.
  { intros v Hin. destruct a as [t0 m|t0|t0 w|w]; simpl in Hstep.
    - destruct (threads s t0); simplify_eq. by apply not_elem_of_nil in Hin.
    - unfold step, acquire, release in Hstep.
      destruct (threads s t0) eqn:Ht0; simpl in *;
        repeat case_match; simplify_eq.
      all: try (by apply not_elem_of_nil in Hin).
      all: apply list_elem_of_singleton in Hin; simplify_eq.
      all: repeat split; eauto 10.
    - destruct (threads s t0); repeat case_match; simplify_eq;
        by apply not_elem_of_nil in Hin.
    - case_match; simplify_eq. by apply not_elem_of_nil in Hin. }
  destruct (Hex t) as [Hb Hn].
  split; intros x Hin; destruct (Hret _ Hin) as (_ & Hq & Hcase).
  - destruct Hcase as [[? _]|[(? & ? & _)|[(? & ? & _)|(n & ? & Hpc)]]];
      simplify_eq. split; [|done]. by apply Hn.
  - destruct Hcase as [[? _]|[(? & ? & _)|[(b & ? & Hpc)|(? & ? & _)]]];
      simplify_eq. split; [|done]. by apply Hb.
Qed.

(** X4, no lost wake-up.  In every execution, whenever the mutex is free,
    the buffer holds an element and some thread is suspended in [pop],
    there is a thread inside [pop] that is not suspended and whose next
    statement acquires the mutex and evaluates the predicate: an element is
    never left behind with every consumer asleep. *)
Theorem no_lost_wakeup s evs :
  reachable s evs → m_mutex s = None →
  (m_queue s ≠ []) → (m_cv s ≠ ∅) →
  ∃ t s', (t ∉ m_cv s)
    ∧ (threads s t = PopLock ∨ threads s t = PopWait)
    ∧ step t s = Some (s', [])
    ∧ threads s' t = PopCheck ∧ m_mutex s' = Some t.
Proof.
  intros Hreach Hmu Hq Hcv.
  destruct (reachable_inv _ _ Hreach) as [Hm _ _ _ _].
  destruct (reachable_covered _ _ Hreach) as (A & HA & Hbound).
  specialize (Hbound Hcv). unfold unannounced in Hbound.
  rewrite Hmu in Hbound.
  assert (size A ≠ 0) as Hsize.
  { destruct (m_queue s); [done|]. simpl in Hbound. lia. }
  apply size_non_empty_iff in Hsize.
  apply set_choose in Hsize as [t Ht].
  destruct (HA t Ht) as [Htk Hncv]. pose proof (Hm t) as Hmt.
  exists t. unfold step, acquire. rewrite Hmu.
  destruct (threads s t) eqn:Hpc; try done; simpl in Hmt;
    try (specialize (Hmt eq_refl); congruence).
  - eexists. repeat split; eauto. simpl. by rewrite fn_lookup_insert.
  - rewrite decide_False by done.
    eexists. repeat split; eauto. simpl. by rewrite fn_lookup_insert.
Qed.
End monitor_facts.

(** * Further properties on concrete executions *)

Section monitor_concrete.
Import Demo Scenario.

(** [mutual_exclusion] while thread 0 is inside [push] and thread 1 waits
    for the mutex. *)
Lemma mutual_exclusion_witness :
  let s := final inside_push fresh in
  0 = 0 ∧ m_mutex s = Some 0 ∧ 0 ∉ m_cv s.
Proof.
  apply (mutual_exclusion (final inside_push fresh)
           (trace inside_push fresh) 0 0); [|reflexivity..];
    apply reachable_final; vm_compute; eexists; reflexivity.
Defined.

(** [buffer_changes_under_lock] for the insertion of thread 0. *)
Lemma buffer_changes_under_lock_witness :
  let s := final [Call 0 (m_push 7); Step 0] fresh in
  ∃ t, (Step 0 : action (T:=nat)) = Step t ∧ m_mutex s = Some t
    ∧ m_mutex (final [Step 0] s) = Some t.
Proof.
  apply (buffer_changes_under_lock
           (final [Call 0 (m_push 7); Step 0] fresh)
           (trace [Call 0 (m_push 7); Step 0] fresh)
           (Step 0)
           (final [Step 0] (final [Call 0 (m_push 7); Step 0] fresh))
           [EvInsert 0 7]).
  - apply reachable_final. vm_compute. eexists. reflexivity.
  - reflexivity.
  - vm_compute. discriminate.
Defined.

(** [observers_exact] for the return of [size()] in thread 1 while thread 2
    waits to push. *)
Lemma observers_exact_witness :
  let s := final size_returning fresh in
  let s' := final [Step 1] s in
  (∀ n, EvReturn 1 (v_size n) ∈ [EvReturn 1 (v_size (T:=nat) 2)] →
     n = length (m_queue s) ∧ m_queue s' = m_queue s)
  ∧ (∀ b, EvReturn 1 (v_bool b) ∈ [EvReturn 1 (v_size (T:=nat) 2)] →
     b = StdQueue.empty (m_queue s) ∧ m_queue s' = m_queue s).
Proof.
  apply (observers_exact (final size_returning fresh)
           (trace size_returning fresh) (Step 1)); [|reflexivity];
    apply reachable_final; vm_compute; eexists; reflexivity.
Defined.

(** [no_lost_wakeup] where thread 3 is still suspended, the buffer holds 7
    and thread 1 has been unblocked. *)
Lemma no_lost_wakeup_witness :
  let s := final one_of_two_woken fresh in
  ∃ t s', (t ∉ m_cv s)
    ∧ (threads s t = PopLock ∨ threads s t = PopWait)
    ∧ step t s = Some (s', [])
    ∧ threads s' t = PopCheck ∧ m_mutex s' = Some t.
Proof.
  apply (no_lost_wakeup (final one_of_two_woken fresh)
           (trace one_of_two_woken fresh)).
  - apply reachable_final. vm_compute. eexists. reflexivity.
  - reflexivity.
  - vm_compute. discriminate.
  - intros Heq. assert (3 ∈ m_cv (final one_of_two_woken fresh)) as Hin.
    { apply (bool_decide_unpack _). vm_compute. exact I. }
    rewrite Heq in Hin. by apply not_elem_of_empty in Hin.
Defined.
End monitor_concrete.

(** * The benchmark *)

Section benchmark_facts.
Import Benchmark.

Lemma hits_le hit n : hits hit n ≤ n.
Proof. induction n as [|n IH]; simpl; [done|]. destruct (hit n); lia. Qed.

Lemma uint64_small z : (0 ≤ z < 2 ^ 64)%Z → uint64 z = z.
Proof. intros Hz. unfold uint64. by apply Z.mod_small. Qed.

Lemma tally_hits hit i :
  (Z.of_nat (S i) < 2 ^ 64)%Z →
  tally (hit i) (Z.of_nat (hits hit i)) = Z.of_nat (hits hit (S i)).
Proof.
  intros Hi. pose proof (hits_le hit i). unfold tally. simpl.
  destruct (hit i); [|f_equal; lia].
  rewrite uint64_small by (literal_bounds; lia). lia.
Qed.

Lemma for_loop_hits hit first n :
  (Z.of_nat (first + n) < 2 ^ 64)%Z →
  for_loop (λ i, tally (hit i)) first n (Z.of_nat (hits hit first))
  = Z.of_nat (hits hit (first + n)).
Proof.
  revert first. induction n as [|n IH]; intros first Hn; simpl.
  - by rewrite Nat.add_0_r.
  - rewrite tally_hits by lia. rewrite IH by lia. f_equal. f_equal. lia.
Qed.

(** X5, [execute_sequential].  For every [total_points] that fits a
    [uint64_t], the counter handed to [report_accuracy] is the number of
    samples for which the test succeeded; it never wraps around and lies
    between 0 and [total_points]. *)
Theorem sequential_counts_hits hit total_points :
  (Z.of_nat total_points < 2 ^ 64)%Z →
  execute_sequential hit total_points
  = (Z.of_nat (hits hit total_points), Z.of_nat total_points)
  ∧ (0 ≤ (execute_sequential hit total_points).1
       ≤ (execute_sequential hit total_points).2)%Z.
Proof.
  intros Hn. unfold execute_sequential.
  pose proof (for_loop_hits hit 0 total_points Hn) as Hloop.
  change (Z.of_nat (hits hit 0)) with 0%Z in Hloop.
  rewrite Hloop. simpl.
  split; [done|]. pose proof (hits_le hit total_points). lia.
Qed.

Lemma counted_spawn hit ppt n : counted hit ppt n (spawn n).
Proof.
  unfold counted, spawn. simpl. rewrite !length_replicate.
  split; [done|]. split; [done|]. intros idx i Hi.
  apply lookup_replicate in Hi as [-> Hidx]. simpl. split; [lia|].
  by apply lookup_replicate_2.
Qed.

Lemma iterate_counted hit ppt n idx st st' :
  (Z.of_nat ppt < 2 ^ 64)%Z →
  counted hit ppt n st → iterate hit ppt idx st = Some st' →
  counted hit ppt n st'.
Proof.
  intros Hppt (Hlc & Hli & Hinv) Hit. unfold iterate in Hit.
  destruct (loop_i st !! idx) as [i|] eqn:Hi; [|done].
  case_decide; simplify_eq. destruct (Hinv idx i Hi) as [_ Hc].
  unfold counted. simpl. rewrite length_alter, length_insert.
  split; [done|]. split; [done|]. intros idx' i' Hi'.
  destruct (decide (idx = idx')) as [<-|Hne].
  - rewrite list_lookup_insert_eq in Hi' by (by eapply lookup_lt_Some).
    simplify_eq. split; [lia|].
    rewrite list_lookup_alter_eq, Hc. simpl. f_equal.
    apply (tally_hits (hit idx) i). lia.
  - rewrite list_lookup_insert_ne in Hi' by done.
    rewrite list_lookup_alter_ne by done. by apply Hinv.
Qed.

Lemma interleave_counted hit ppt n sched st st' :
  (Z.of_nat ppt < 2 ^ 64)%Z →
  counted hit ppt n st → interleave hit ppt sched st = Some st' →
  counted hit ppt n st'.
Proof.
  intros Hppt. revert st. induction sched as [|idx sched IH];
    intros st Hc Hrun; simpl in Hrun; [by simplify_eq|].
  destruct (iterate hit ppt idx st) as [st1|] eqn:Hit; [|done].
  eauto using iterate_counted.
Qed.

Lemma sum_counts_hits_le (f : nat → nat) ppt l :
  (∀ idx, f idx ≤ ppt) →
  (0 ≤ sum_counts (map (λ idx, Z.of_nat (f idx)) l)
     ≤ Z.of_nat (length l) * Z.of_nat ppt)%Z.
Proof.
  intros Hf. induction l as [|idx l IH]; simpl; [lia|].
  specialize (Hf idx). unfold sum_counts in *. simpl. lia.
Qed.

Lemma int32_uint64 z : int32 (uint64 z) = int32 z.
Proof.
  unfold int32, uint64. literal_bounds. Z.div_mod_to_equations. lia.
Qed.

Lemma int32_add_l z c : int32 (int32 z + c) = int32 (z + c).
Proof. unfold int32. literal_bounds. Z.div_mod_to_equations. lia. Qed.

Lemma uint64_add_l z c : uint64 (uint64 z + c) = uint64 (z + c).
Proof. unfold uint64. literal_bounds. Z.div_mod_to_equations. lia. Qed.

Lemma accumulate_from init cs :
  fold_left (λ init c, int32 (uint64 (uint64 init + c)%Z)) cs (int32 init)
  = int32 (init + sum_counts cs).
Proof.
  revert init. induction cs as [|c cs IH]; intros init; simpl.
  - unfold sum_counts. simpl. by rewrite Z.add_0_r.
  - rewrite int32_uint64.
    assert (int32 (uint64 (int32 init) + c) = int32 (init + c)) as ->.
    { rewrite <- (int32_add_l init c).
      rewrite <- (int32_uint64 (uint64 (int32 init) + c)).
      by rewrite uint64_add_l, int32_uint64. }
    rewrite IH. f_equal. unfold sum_counts. simpl. lia.
Qed.

Lemma joined_counts hit ppt n st :
  counted hit ppt n st → joined ppt st →
  counts st = map (λ idx, Z.of_nat (hits (hit idx) ppt)) (seq 0 n).
Proof.
  intros (Hlc & Hli & Hinv) Hj. apply list_eq. intros idx.
  rewrite list_lookup_fmap.
  destruct (decide (idx < n)) as [Hlt|Hge].
  - rewrite lookup_seq_lt by done. simpl.
    destruct (lookup_lt_is_Some_2 (loop_i st) idx) as [i Hi]; [lia|].
    assert (i = ppt) as ->.
    { unfold joined in Hj. rewrite Forall_lookup in Hj. by eapply Hj. }
    by destruct (Hinv idx ppt Hi).
  - rewrite lookup_seq_ge by lia. simpl. apply lookup_ge_None. lia.
Qed.


(** X7, [std::accumulate] with the [int] literal 0.  Summing the counters
    in an [int] accumulator yields the exact sum converted to [int] once.
    The value handed to [report_accuracy] is the exact sum if and only if
    the sum is below 2^31 or lies in the last 2^31 values below 2^64; in
    particular it is wrong for every sum from 2^31 up to 2^64 - 2^31, and
    it is too large by 2^64 - 2^32 when the sum lies between 2^31 and
    2^32. *)
Theorem accumulate_truncates cs :
  accumulate cs = int32 (sum_counts cs)
  ∧ ((0 ≤ sum_counts cs < 2 ^ 31)%Z →
     uint64 (accumulate cs) = sum_counts cs)
  ∧ ((2 ^ 31 ≤ sum_counts cs < 2 ^ 32)%Z →
     uint64 (accumulate cs) = (sum_counts cs + (2 ^ 64 - 2 ^ 32))%Z)
  ∧ (uint64 (accumulate cs) = sum_counts cs
     ↔ (0 ≤ sum_counts cs < 2 ^ 31)%Z
       ∨ (2 ^ 64 - 2 ^ 31 ≤ sum_counts cs < 2 ^ 64)%Z)
  ∧ ((2 ^ 31 ≤ sum_counts cs < 2 ^ 64 - 2 ^ 31)%Z →
     uint64 (accumulate cs) ≠ sum_counts cs).
Proof.
  assert (accumulate cs = int32 (sum_counts cs)) as Hacc.
  { unfold accumulate. change 0%Z with (int32 0) at 1.
    by rewrite accumulate_from. }
  rewrite Hacc. split; [done|].
  unfold uint64, int32. literal_bounds.
  repeat split; try intros Hs; try intros Heq;
    Z.div_mod_to_equations; lia.
Qed.

(** X8, the report of [execute_parallel].  When
    [num_threads * points_per_thread] is below 2^31, then for every
    interleaving of the workers the two values handed to
    [report_accuracy] after the join are the total number of hits of all
    workers and the total number of samples, and the first does not exceed
    the second. *)
Theorem parallel_report_exact hit points_per_thread num_threads sched st :
  (Z.of_nat num_threads * Z.of_nat points_per_thread < 2 ^ 31)%Z →
  interleave hit points_per_thread sched (spawn num_threads) = Some st →
  joined points_per_thread st →
  let total_hits :=
    sum_counts (map (λ idx, Z.of_nat (hits (hit idx) points_per_thread))
                  (seq 0 num_threads)) in
  report_parallel num_threads points_per_thread st
  = (total_hits, (Z.of_nat num_threads * Z.of_nat points_per_thread)%Z)
  ∧ (0 ≤ total_hits
       ≤ Z.of_nat num_threads * Z.of_nat points_per_thread)%Z.
Proof.
  intros Hsmall Hrun Hj total_hits.
  assert (0 ≤ total_hits
            ≤ Z.of_nat num_threads * Z.of_nat points_per_thread)%Z
    as Hbound.
  { pose proof (sum_counts_hits_le
                  (λ idx, hits (hit idx) points_per_thread)
                  points_per_thread (seq 0 num_threads)) as Hle.
    rewrite length_seq in Hle. apply Hle. intros idx. apply hits_le. }
  split; [|done]. unfold report_parallel.
  destruct (decide (num_threads = 0)) as [->|Hn].
  - destruct sched as [|idx sched]; simpl in Hrun.
    + by simplify_eq.
    + unfold iterate in Hrun. by destruct idx.
  - assert (Z.of_nat points_per_thread < 2 ^ 64)%Z as Hppt.
    { literal_bounds. nia. }
    pose proof (interleave_counted _ _ _ _ _ _ Hppt
                  (counted_spawn hit points_per_thread num_threads) Hrun)
      as Hc.
    rewrite (joined_counts _ _ _ _ Hc Hj). fold total_hits.
    f_equal.
    + unfold accumulate. change 0%Z with (int32 0) at 1.
      rewrite accumulate_from. fold total_hits.
      unfold uint64, int32. literal_bounds. Z.div_mod_to_equations. lia.
    + apply uint64_small. literal_bounds. lia.
Qed.

(** X9, the three experiments started by [main] do the same work.  For
    every value [hc] of [hardware_concurrency()], the monitor experiment
    (producers times points per producer), the sequential experiment and
    the parallel experiment (workers times points per worker) process
    the same number of points, 65536 * (hc / 2), computed without any
    wrap-around; the monitor experiment starts as many threads as the
    parallel one, at most [hc]; with [hc] below 2 nothing is processed at
    all; and with [hc] below 65536 the parallel total stays below 2^31. *)
Theorem main_same_workload hc :
  (0 ≤ hc < 2 ^ 32)%Z →
  let c := main hc in
  ((monitor_threads_per_type c * monitor_points_per_thread c
    = 65536 * (hc / 2)
    ∧ sequential_total_points c = 65536 * (hc / 2)
    ∧ parallel_num_threads c * parallel_points_per_thread c
      = 65536 * (hc / 2)
    ∧ 65536 * (hc / 2) < 2 ^ 64
    ∧ parallel_num_threads c = 2 * monitor_threads_per_type c
    ∧ parallel_num_threads c ≤ hc
    ∧ (hc < 2 → sequential_total_points c = 0)
    ∧ (hc < 65536 →
       parallel_num_threads c * parallel_points_per_thread c < 2 ^ 31))%Z).
Proof.
  intros Hhc c. subst c. unfold main. simpl.
  change POINTS_PER_TYPE with 32768%Z.
  unfold THREADS_PER_TYPE, uint64, uint32. literal_bounds.
  Z.div_mod_to_equations. lia.
Qed.
End benchmark_facts.

(** * The monitor experiment *)

Section experiment_facts.
Context {T : Type}.
Variable inside : T → bool.
Variables threads_per_type points_per_thread : nat.

Local Abbreviation N := threads_per_type.
Local Abbreviation M := points_per_thread.
Implicit Types (e : experiment (T:=T)) (t : tid).

Lemma sum_list_update (f g : tid → nat) (l : list tid) t :
  NoDup l → (∀ t', t' ≠ t → g t' = f t') →
  sum_list (g <$> l) + (if decide (t ∈ l) then f t else 0)
  = sum_list (f <$> l) + (if decide (t ∈ l) then g t else 0).
Proof.
  intros Hnd Hsame. induction l as [|x l IH].
  - case_decide as Hin; [by apply not_elem_of_nil in Hin|done].
  - apply list.NoDup_cons in Hnd as [Hx Hnd].
    specialize (IH Hnd). rewrite !fmap_cons. simpl.
    destruct (decide (x = t)) as [->|Hne].
    + destruct (decide (t ∈ l)); [done|].
      destruct (decide (t ∈ t :: l)) as [_|Hout]; [lia|].
      destruct Hout. apply list_elem_of_here.
    + rewrite (Hsame x Hne).
      destruct (decide (t ∈ l)) as [Hin|Hout].
      * destruct (decide (t ∈ x :: l)) as [_|Hout]; [lia|].
        destruct Hout. by apply list_elem_of_further.
      * destruct (decide (t ∈ x :: l)) as [Hin|_]; [|lia].
        apply elem_of_cons in Hin as [?|?]; [congruence|done].
Qed.

Lemma sum_list_bound (f : tid → nat) (l : list tid) b :
  (∀ t, t ∈ l → f t ≤ b) → sum_list (f <$> l) ≤ length l * b.
Proof.
  intros Hb. induction l as [|x l IH]; [simpl; lia|].
  rewrite fmap_cons. simpl.
  pose proof (Hb x (list_elem_of_here _ _)).
  assert (sum_list (f <$> l) ≤ length l * b); [|lia].
  apply IH. intros t Ht. apply Hb. by apply list_elem_of_further.
Qed.

(** If the sum stays below the bound, one term does. *)
Lemma sum_list_short (f : tid → nat) (l : list tid) b :
  sum_list (f <$> l) < length l * b → ∃ t, t ∈ l ∧ f t < b.
Proof.
  induction l as [|x l IH]; [simpl; lia|].
  rewrite fmap_cons. simpl. intros Hlt.
  destruct (decide (f x < b)) as [Hx|Hx].
  - exists x. split; [apply list_elem_of_here|done].
  - destruct IH as (t & Ht & Hft); [lia|].
    exists t. split; [by apply list_elem_of_further|done].
Qed.

Lemma sum_list_member (f : tid → nat) (l : list tid) t :
  t ∈ l → f t ≤ sum_list (f <$> l).
Proof.
  induction l as [|x l IH]; [by intros ?%not_elem_of_nil|].
  rewrite fmap_cons. simpl. intros [->|Hin]%elem_of_cons; [lia|].
  specialize (IH Hin). lia.
Qed.

Lemma role_members t :
  match role_of N t with
  | Some Producer => (t ∈ producers N) ∧ (t ∉ consumers N)
  | Some Consumer => (t ∉ producers N) ∧ (t ∈ consumers N)
  | None => (t ∉ producers N) ∧ (t ∉ consumers N)
  end.
Proof.
  unfold role_of, producers, consumers.
  repeat case_decide; rewrite !elem_of_seq; lia.
Qed.

Lemma hits_in_le (pts : list T) : hits_in inside pts ≤ length pts.
Proof.
  induction pts as [|pt pts IH]; simpl; [done|]. destruct (inside pt); lia.
Qed.

Lemma hits_in_app (l1 l2 : list T) :
  hits_in inside (l1 ++ l2) = hits_in inside l1 + hits_in inside l2.
Proof. induction l1 as [|pt l1 IH]; simpl; [done|]. lia. Qed.

Lemma sum_list_zero (f : tid → nat) (l : list tid) :
  (∀ t, f t = 0) → sum_list (f <$> l) = 0.
Proof.
  intros Hf. induction l as [|x l IH]; [done|].
  rewrite fmap_cons. simpl. by rewrite Hf, IH.
Qed.

Lemma start_sound : sound inside N M [] (start (T:=T)).
Proof.
  split; simpl.
  - by exists [].
  - intros t. unfold shape. simpl. destruct (role_of N t) as [[]|]; simpl;
      repeat split; lia.
  - by rewrite sum_list_zero.
  - by rewrite sum_list_zero.
  - by rewrite sum_list_zero.
  - done.
Qed.

(** One thread [t] changes its local state; everybody else stays. *)
Lemma sound_step evs evs' e e' t :
  sound inside N M evs e →
  reachable (points e') (evs ++ evs') →
  (∀ t', t' ≠ t →
     threads (points e') t' = threads (points e) t'
     ∧ loop_var e' t' = loop_var e t' ∧ popped e' t' = popped e t') →
  shape N M e' t →
  length (inserted evs')
    + (if decide (t ∈ producers N) then pushed_by e t else 0)
    = (if decide (t ∈ producers N) then pushed_by e' t else 0) →
  length (removed evs')
    + (if decide (t ∈ consumers N) then popped_by e t else 0)
    = (if decide (t ∈ consumers N) then popped_by e' t else 0) →
  (Z.of_nat (hits_in inside (removed evs')) + in_circle e
    + Z.of_nat (if decide (t ∈ consumers N)
                then untested_hits inside e t else 0)
   = in_circle e'
     + Z.of_nat (if decide (t ∈ consumers N)
                 then untested_hits inside e' t else 0))%Z →
  (0 ≤ in_circle e')%Z →
  sound inside N M (evs ++ evs') e'.
Proof.
  intros [Hq Hsh Hpu Hpo Hhi Hc0] Hreach Hoth Hsht Hdpu Hdpo Hdhi Hc0'.
  split; try done.
  - intros t'. destruct (decide (t' = t)) as [->|Hne]; [done|].
    destruct (Hoth t' Hne) as (Hth & Hlv & Hpp).
    specialize (Hsh t'). unfold shape in *. by rewrite Hth, Hlv, Hpp.
  - rewrite inserted_app, length_app, Hpu.
    pose proof (sum_list_update (pushed_by e) (pushed_by e') (producers N) t
                  (NoDup_seq _ _)) as Hsum.
    rewrite <- Hdpu in Hsum. rewrite Nat.add_comm.
    assert (∀ t', t' ≠ t → pushed_by e' t' = pushed_by e t') as Hsame.
    { intros t' Hne. destruct (Hoth t' Hne) as (Hth & Hlv & Hpp).
      unfold pushed_by. by rewrite Hth, Hlv. }
    specialize (Hsum Hsame). lia.
  - rewrite removed_app, length_app, Hpo.
    pose proof (sum_list_update (popped_by e) (popped_by e') (consumers N) t
                  (NoDup_seq _ _)) as Hsum.
    rewrite <- Hdpo in Hsum.
    assert (∀ t', t' ≠ t → popped_by e' t' = popped_by e t') as Hsame.
    { intros t' Hne. destruct (Hoth t' Hne) as (Hth & Hlv & Hpp).
      unfold popped_by. by rewrite Hth, Hlv, Hpp. }
    specialize (Hsum Hsame). lia.
  - rewrite removed_app, hits_in_app.
    pose proof (sum_list_update (untested_hits inside e)
                  (untested_hits inside e') (consumers N) t
                  (NoDup_seq _ _)) as Hsum.
    assert (∀ t', t' ≠ t →
              untested_hits inside e' t' = untested_hits inside e t')
      as Hsame.
    { intros t' Hne. destruct (Hoth t' Hne) as (Hth & Hlv & Hpp).
      unfold untested_hits. by rewrite Hth, Hpp. }
    specialize (Hsum Hsame). lia.
Qed.

Lemma popped_total evs e :
  sound inside N M evs e →
  (Z.of_nat (length (removed evs)) ≤ Z.of_nat N * Z.of_nat M)%Z.
Proof.
  intros [_ Hsh _ Hpo _ _]. rewrite Hpo.
  pose proof (sum_list_bound (popped_by e) (consumers N) M) as Hb.
  assert (length (consumers N) = N) as Hlen by apply length_seq.
  rewrite Hlen in Hb.
  assert (sum_list (popped_by e <$> consumers N) ≤ N * M); [|lia].
  apply Hb. intros t Ht. specialize (Hsh t). unfold shape in Hsh.
  pose proof (role_members t) as Hrole.
  destruct (role_of N t) as [[]|]; [by destruct Hrole| |by destruct Hrole].
  unfold popped_by.
  destruct (threads (points e) t); try done;
    destruct (popped e t); try (destruct Hsh; simplify_eq); lia.
Qed.

Lemma advance_sound mv e e' evs evs' :
  (Z.of_nat N * Z.of_nat M < 2 ^ 64)%Z →
  sound inside N M evs e → advance inside N M mv e = Some (e', evs') →
  sound inside N M (evs ++ evs') e'.
Proof.
  intros Hfits Hs Hadv.
  pose proof Hs as [Hq Hsh Hpu Hpo Hhi Hc0].
  pose proof (reachable_inv _ _ Hq) as Hi.
  destruct mv as [a|t]; simpl in Hadv.
  - destruct (allowed N M a e) eqn:Hal; [|done].
    destruct (perform a (points e)) as [[s' evs1]|] eqn:Hp; simplify_eq.
    assert (reachable s' (evs ++ evs')) as Hreach.
    { eapply reachable_run; [done|]. by apply run_one. }
    assert ((∃ t, (a = Step t ∨ (∃ w, a = Notify t w))
               ∧ moves t (threads (points e) t) (threads s' t) evs'
               ∧ (∀ t', t' ≠ t → threads s' t' = threads (points e) t'))
            ∨ (evs' = [] ∧ (∃ t, (∃ m, a = Call t m)
               ∧ threads (points e) t = Idle
               ∧ (∀ t', t' ≠ t → threads s' t' = threads (points e) t')
               ∧ ((role_of N t = Some Producer
                   ∧ (∃ pt, threads s' t = PushLock pt))
                  ∨ (role_of N t = Some Consumer ∧ popped e t = None
                     ∧ threads s' t = PopLock))
               ∧ loop_var e t < M))
            ∨ (evs' = [] ∧ (∀ t, threads s' t = threads (points e) t)))
      as Hkind.
    { destruct a as [t m|t|t w|w].
      - right; left. simpl in Hp, Hal.
        destruct (threads (points e) t) eqn:Ht; simplify_eq.
        split; [done|]. exists t. split; [eauto|]. split; [done|].
        split; [intros t' Hne; simpl; by rewrite fn_lookup_insert_ne|].
        simpl. rewrite fn_lookup_insert.
        destruct (role_of N t) as [[]|]; destruct m; try done.
        + apply bool_decide_eq_true in Hal. eauto 10.
        + destruct (popped e t) eqn:Hpp; [done|].
          apply bool_decide_eq_true in Hal. eauto 10.
      - left. exists t. split; [eauto|]. by apply step_moves.
      - left. exists t. split; [eauto|]. by eapply notify_moves.
      - right; right. simpl in Hp. case_match; by simplify_eq. }
    clear Hp Hal.
    destruct Hkind
      as [(t & _ & Hmv & Hoth)
         |[(-> & t & _ & Ht & Hoth & Hcall & Hlt)|[-> Hall]]].
    + pose proof (Hsh t) as Hsht. unfold shape in Hsht.
      pose proof (role_members t) as Hrole.
      remember (threads (points e) t) as p eqn:Hp1.
      remember (threads s' t) as p' eqn:Hp2.
      destruct Hmv; simpl.
      all: destruct (role_of N t) as [[]|] eqn:Hr;
        try (by destruct Hsht); try (destruct Hsht; congruence).
      all: destruct Hrole as [Hrp Hrc].
      all: eapply (sound_step evs _ e _ t Hs); simpl; try done.
      all: try (intros t' Hne; rewrite ?fn_lookup_insert_ne by done;
                by rewrite Hoth).
      all: unfold shape, pushed_by, popped_by, untested_hits; simpl;
        rewrite ?Hr, <- ?Hp1, <- ?Hp2, ?fn_lookup_insert.
      all: rewrite ?(decide_True _ _ Hrp), ?(decide_False _ _ Hrp),
             ?(decide_True _ _ Hrc), ?(decide_False _ _ Hrc).
      all: try (destruct Hsht as [Hsp Hsl]; rewrite ?Hsp).
      all: try (split; [done|]); try done; try lia.
    + simpl. pose proof (Hsh t) as Hsht. unfold shape in Hsht.
      pose proof (role_members t) as Hrole.
      destruct Hcall as [[Hr [pt Ht']]|(Hr & Hpp & Ht')];
        rewrite Hr, Ht in *; destruct Hrole as [Hrp Hrc].
      all: eapply (sound_step evs _ e _ t Hs); simpl; try done.
      all: try (intros t' Hne; by rewrite Hoth).
      all: unfold shape, pushed_by, popped_by, untested_hits; simpl;
        rewrite ?Hr, ?Ht, ?Ht'.
      all: rewrite ?(decide_True _ _ Hrp), ?(decide_False _ _ Hrp),
             ?(decide_True _ _ Hrc), ?(decide_False _ _ Hrc).
      all: try (destruct Hsht as [Hsp Hsl]; rewrite ?Hsp).
      all: rewrite ?Hpp; try (split; [done|]); try done; try lia.
    + simpl. rewrite app_nil_r. split; simpl; try done.
      * by rewrite app_nil_r in Hreach.
      * intros t. specialize (Hsh t). unfold shape in *. simpl.
        by rewrite Hall.
      * rewrite Hpu. f_equal. apply list_fmap_ext. intros _ t _.
        unfold pushed_by. simpl. by rewrite Hall.
      * rewrite Hpo. f_equal. apply list_fmap_ext. intros _ t _.
        unfold popped_by. simpl. by rewrite Hall.
      * rewrite Hhi. do 3 f_equal. apply list_fmap_ext. intros _ t _.
        unfold untested_hits. simpl. by rewrite Hall.
  - destruct (popped e t) as [pt|] eqn:Hpp; simplify_eq.
    pose proof (Hsh t) as Hsht. unfold shape in Hsht.
    pose proof (role_members t) as Hrole.
    pose proof (popped_total _ _ Hs) as Htot.
    pose proof (hits_in_le (removed evs)) as Hle.
    destruct (role_of N t) as [[]|] eqn:Hr;
      [destruct Hsht; congruence| |destruct Hsht as (_ & _ & ?); congruence].
    destruct Hrole as [Hrp Hrc].
    destruct (threads (points e) t) eqn:Ht; try done;
      try (destruct Hsht; congruence). rewrite Hpp in Hsht.
    pose proof (sum_list_member (untested_hits inside e) (consumers N) t Hrc)
      as Hpt.
    unfold untested_hits at 1 in Hpt. rewrite Hpp, Ht in Hpt.
    simpl in Hpt.
    assert (Benchmark.tally (inside pt) (in_circle e)
            = in_circle e + Z.of_nat (if inside pt then 1 else 0))%Z
      as Htally.
    { unfold Benchmark.tally. destruct (inside pt); [|simpl; lia].
      rewrite uint64_small; [simpl; lia|]. lia. }
    eapply (sound_step evs _ e _ t Hs); simpl.
    + by rewrite app_nil_r.
    + intros t' Hne. by rewrite !fn_lookup_insert_ne.
    + unfold shape. simpl. rewrite Hr, Ht, !fn_lookup_insert. lia.
    + by rewrite !decide_False by done.
    + rewrite !decide_True by done. unfold popped_by. simpl.
      rewrite Hpp, Ht, !fn_lookup_insert. lia.
    + rewrite !decide_True by done. unfold untested_hits. simpl.
      rewrite Hpp, Ht, !fn_lookup_insert, Htally. simpl. lia.
    + rewrite Htally. lia.
Qed.

Lemma play_sound sched e e' evs evs' :
  (Z.of_nat N * Z.of_nat M < 2 ^ 64)%Z →
  sound inside N M evs e → play inside N M sched e = Some (e', evs') →
  sound inside N M (evs ++ evs') e'.
Proof.
  intros Hfits. revert e evs evs'.
  induction sched as [|mv sched IH]; intros e evs evs' Hs Hplay;
    simpl in Hplay.
  - simplify_eq. by rewrite app_nil_r.
  - destruct (advance inside N M mv e) as [[e1 evs1]|] eqn:Ha; [|done].
    destruct (play inside N M sched e1) as [[e2 evs2]|] eqn:Hr; simplify_eq.
    rewrite app_assoc. eauto using advance_sound.
Qed.

Lemma sum_list_const (f : tid → nat) (l : list tid) b :
  (∀ t, t ∈ l → f t = b) → sum_list (f <$> l) = length l * b.
Proof.
  intros Hb. induction l as [|x l IH]; [done|].
  rewrite fmap_cons. simpl.
  rewrite (Hb x (list_elem_of_here _ _)), IH; [done|].
  intros t Ht. apply Hb. by apply list_elem_of_further.
Qed.

Lemma sum_list_strict (f : tid → nat) (l : list tid) b t :
  (∀ t', t' ∈ l → f t' ≤ b) → t ∈ l → f t < b →
  sum_list (f <$> l) < length l * b.
Proof.
  intros Hb Hin Hlt. induction l as [|x l IH];
    [by apply not_elem_of_nil in Hin|].
  rewrite fmap_cons. simpl.
  pose proof (Hb x (list_elem_of_here _ _)) as Hx.
  assert (∀ t', t' ∈ l → f t' ≤ b) as Hb'.
  { intros t' Ht'. apply Hb. by apply list_elem_of_further. }
  pose proof (sum_list_bound f l b Hb') as Hl.
  apply elem_of_cons in Hin as [->|Hin]; [lia|].
  specialize (IH Hb' Hin). lia.
Qed.

Lemma bounded_search (f : nat → bool) n :
  (∀ t, t < n → f t = true) ∨ (∃ t, t < n ∧ f t = false).
Proof.
  induction n as [|n [IH|(t & Ht & Hf)]].
  - left. intros t Ht. lia.
  - destruct (f n) eqn:Hn.
    + left. intros t Ht. destruct (decide (t = n)) as [->|]; [done|].
      apply IH. lia.
    + right. exists n. split; [lia|done].
  - right. exists t. split; [lia|done].
Qed.

Lemma pushed_total evs e :
  sound inside N M evs e →
  (Z.of_nat (length (inserted evs)) ≤ Z.of_nat N * Z.of_nat M)%Z.
Proof.
  intros [_ Hsh Hpu _ _ _]. rewrite Hpu.
  pose proof (sum_list_bound (pushed_by e) (producers N) M) as Hb.
  assert (length (producers N) = N) as Hlen by apply length_seq.
  rewrite Hlen in Hb.
  assert (sum_list (pushed_by e <$> producers N) ≤ N * M); [|lia].
  apply Hb. intros t Ht. specialize (Hsh t). unfold shape in Hsh.
  pose proof (role_members t) as Hrole.
  destruct (role_of N t) as [[]|]; [|by destruct Hrole..].
  unfold pushed_by. destruct Hsh as [_ Hsh].
  destruct (threads (points e) t); try done; lia.
Qed.

(** X10, the counters of [execute_monitor] are ordered at every moment.
    When [threads_per_type * points_per_thread] fits a [uint64_t], then in
    every state of every interleaving [in_circle] is at least 0 and at most
    the number of hits among the points removed so far, which is at most
    the number of points removed, which is at most the number of points
    inserted, which is at most [threads_per_type * points_per_thread]. *)
Theorem monitor_counters_ordered sched e evs :
  (Z.of_nat N * Z.of_nat M < 2 ^ 64)%Z →
  play inside N M sched start = Some (e, evs) →
  (0 ≤ in_circle e ≤ Z.of_nat (hits_in inside (removed evs)))%Z
  ∧ hits_in inside (removed evs) ≤ length (removed evs)
  ∧ length (removed evs) ≤ length (inserted evs)
  ∧ (Z.of_nat (length (inserted evs)) ≤ Z.of_nat N * Z.of_nat M)%Z.
Proof.
  intros Hfits Hplay.
  pose proof (play_sound _ _ _ [] _ Hfits start_sound Hplay) as Hs.
  simpl in Hs. pose proof Hs as [Hq _ _ _ Hhi Hc0].
  destruct (reachable_hist _ _ Hq) as [Hb _].
  repeat split; [done|lia|apply hits_in_le| |by eapply pushed_total].
  rewrite Hb, length_app. lia.
Qed.

(** X11, the result of [execute_monitor].  When
    [threads_per_type * points_per_thread] fits a [uint64_t], then at the
    end of every interleaving in which all threads can be joined, exactly
    [threads_per_type * points_per_thread] points were inserted, the same
    points were removed in the same order, the queue is empty, and the
    values handed to [report_accuracy] are the number of inserted points
    that pass the test and the number of inserted points. *)
Theorem monitor_result sched e evs :
  (Z.of_nat N * Z.of_nat M < 2 ^ 64)%Z →
  play inside N M sched start = Some (e, evs) →
  all_joined N M e →
  length (inserted evs) = N * M
  ∧ removed evs = inserted evs
  ∧ m_queue (points e) = []
  ∧ report_monitor N M e
    = (Z.of_nat (hits_in inside (inserted evs)),
       Z.of_nat (length (inserted evs))).
Proof.
  intros Hfits Hplay Hj.
  pose proof (play_sound _ _ _ [] _ Hfits start_sound Hplay) as Hs.
  simpl in Hs. pose proof Hs as [Hq Hsh Hpu Hpo Hhi Hc0].
  destruct (reachable_hist _ _ Hq) as [Hb _].
  assert (∀ t, t < N + N →
            loop_var e t = M ∧ popped e t = None
            ∧ threads (points e) t = Idle) as Hend.
  { intros t Ht. specialize (Hj t Ht). unfold ended in Hj.
    apply andb_true_iff in Hj as [Hj Hpc].
    apply andb_true_iff in Hj as [Hlv Hpp].
    apply bool_decide_eq_true in Hlv.
    destruct (popped e t); [done|].
    by destruct (threads (points e) t). }
  assert (length (inserted evs) = N * M) as Hins.
  { rewrite Hpu, (sum_list_const _ _ M);
      [unfold producers; by rewrite length_seq|].
    intros t Ht. apply elem_of_seq in Ht.
    destruct (Hend t) as (Hlv & _ & Hpc); [lia|].
    unfold pushed_by. rewrite Hlv, Hpc. lia. }
  assert (length (removed evs) = N * M) as Hrem.
  { rewrite Hpo, (sum_list_const _ _ M);
      [unfold consumers; by rewrite length_seq|].
    intros t Ht. apply elem_of_seq in Ht.
    destruct (Hend t) as (Hlv & Hpp & Hpc); [lia|].
    unfold popped_by. rewrite Hlv, Hpp, Hpc. lia. }
  assert (m_queue (points e) = []) as Hempty.
  { apply length_zero_iff_nil.
    apply (f_equal length) in Hb. rewrite length_app in Hb. lia. }
  rewrite Hempty, app_nil_r in Hb.
  repeat split; try done.
  unfold report_monitor. f_equal.
  - rewrite Hb, Hhi, (sum_list_const _ _ 0); [lia|].
    intros t Ht. apply elem_of_seq in Ht.
    destruct (Hend t) as (_ & Hpp & Hpc); [lia|].
    unfold untested_hits. by rewrite Hpp, Hpc.
  - rewrite Hins. rewrite uint64_small; [lia|]. lia.
Qed.

(** A producer that has not pushed all its points can move when the mutex
    is free. *)
Lemma producer_can_move evs e t (pt : T) :
  sound inside N M evs e → m_mutex (points e) = None →
  role_of N t = Some Producer → pushed_by e t < M →
  ∃ mv e' evs', advance inside N M mv e = Some (e', evs')
    ∧ (mv = Queue (Step t) ∨ mv = Queue (Call t (m_push pt))).
Proof.
  intros [Hq Hsh _ _ _ _] Hmu Hr Hlt.
  destruct (reachable_inv _ _ Hq) as [Hm _ _ _ _].
  specialize (Hsh t). unfold shape in Hsh. rewrite Hr in Hsh.
  destruct Hsh as [Hpp Hsh]. unfold pushed_by in Hlt.
  pose proof (Hm t) as Hmt.
  destruct (threads (points e) t) eqn:Ht; try done; simpl in Hmt;
    try (specialize (Hmt eq_refl); congruence).
  - exists (Queue (Call t (m_push pt))). simpl.
    rewrite Hr, Ht, bool_decide_true by lia. eauto.
  - exists (Queue (Step t)). simpl. unfold step, acquire.
    rewrite Ht, Hmu. eauto.
Qed.

(** While some thread cannot be joined, some thread can execute its next
    statement, and no spurious wake-up is needed for that. *)
Lemma unfinished_can_move evs e (pt : T) :
  sound inside N M evs e → ¬ all_joined N M e →
  ∃ mv e' evs',
    advance inside N M mv e = Some (e', evs')
    ∧ ∀ w, mv ≠ Queue (Spurious w).
Proof.
  intros Hs Hnot. pose proof Hs as [Hq Hsh Hpu Hpo Hhi Hc0].
  pose proof (reachable_inv _ _ Hq) as [Hm Hc _ _ _].
  destruct (m_mutex (points e)) as [o|] eqn:Hmu.
  { (* the owner of the mutex moves *)
    pose proof (reachable_owned _ _ Hq o Hmu) as Hh.
    destruct (owner_can_move _ _ Hmu Hh) as (a & s' & evs' & Hp & Ha).
    exists (Queue a). simpl. rewrite Hp.
    destruct Ha as [->|[w ->]]; simpl; eauto. }
  destruct (bounded_search (ended M e) (N + N)) as [Hall|(t & Ht & Hend)];
    [done|].
  pose proof (Hsh t) as Hsht. unfold shape in Hsht.
  pose proof (role_members t) as Hrole. pose proof (Hm t) as Hmt.
  unfold ended in Hend.
  destruct (role_of N t) as [[]|] eqn:Hr.
  - (* an unfinished producer *)
    destruct Hsht as [Hpp Hsht]. rewrite Hpp in Hend.
    destruct (producer_can_move _ _ t pt Hs Hmu Hr)
      as (mv & e' & evs' & Hadv & Hmv).
    { unfold pushed_by.
      destruct (threads (points e) t) eqn:Hpc; try done; simpl in Hmt;
        try (specialize (Hmt eq_refl); congruence); [|lia].
      rewrite andb_true_r in Hend.
      apply andb_false_iff in Hend as [Hend|?]; [|done].
      apply bool_decide_eq_false in Hend. lia. }
    exists mv, e', evs'. split; [done|]. by destruct Hmv as [->| ->].
  - (* an unfinished consumer *)
    destruct (threads (points e) t) eqn:Hpc; try done; simpl in Hmt;
      try (specialize (Hmt eq_refl); congruence).
    + destruct (popped e t) as [pt'|] eqn:Hpp.
      * exists (Test t). simpl. rewrite Hpp. eauto.
      * exists (Queue (Call t m_pop)). simpl.
        rewrite Hr, Hpp, Hpc. rewrite !andb_true_r in Hend.
        apply bool_decide_eq_false in Hend.
        rewrite bool_decide_true by lia. eauto.
    + exists (Queue (Step t)). simpl. unfold step, acquire.
      rewrite Hpc, Hmu. eauto.
    + destruct (decide (t ∈ m_cv (points e))) as [Hin|Hout].
      2: { exists (Queue (Step t)). simpl. unfold step, acquire.
           rewrite Hpc, Hmu, decide_False by done. eauto. }
      (* the consumer is suspended: somebody else is on the way *)
      destruct (reachable_covered _ _ Hq) as (A & HA & Hbound).
      assert (m_cv (points e) ≠ ∅) as Hne.
      { intros Heq. rewrite Heq in Hin. by apply not_elem_of_empty in Hin. }
      specialize (Hbound Hne). unfold unannounced in Hbound.
      rewrite Hmu in Hbound.
      destruct (decide (size A = 0)) as [Hsz|Hsz].
      * (* the buffer is empty: a producer still has points to push *)
        destruct (reachable_hist _ _ Hq) as [Hb _].
        assert (m_queue (points e) = []) as Hempty.
        { apply length_zero_iff_nil. lia. }
        rewrite Hempty, app_nil_r in Hb.
        destruct Hsht as [Hpp Hlt]. destruct Hrole as [_ Hrc].
        assert (sum_list (popped_by e <$> consumers N)
                < length (consumers N) * M) as Hshort.
        { apply (sum_list_strict _ _ _ t); [|done|].
          - intros t' Ht'. pose proof (Hsh t') as Hsh'.
            unfold shape in Hsh'. pose proof (role_members t') as Hrole'.
            destruct (role_of N t') as [[]|];
              [by destruct Hrole'| |by destruct Hrole'].
            unfold popped_by.
            destruct (threads (points e) t'); try done;
              destruct (popped e t');
              try (destruct Hsh'; simplify_eq); lia.
          - unfold popped_by. rewrite Hpp, Hpc. lia. }
        rewrite <- Hpo, <- Hb, Hpu in Hshort.
        assert (length (consumers N) = length (producers N)) as Hlen.
        { unfold consumers, producers. by rewrite !length_seq. }
        rewrite Hlen in Hshort.
        apply sum_list_short in Hshort as (p & Hp & Hplt).
        pose proof (role_members p) as Hrolep.
        destruct (role_of N p) as [[]|] eqn:Hrp;
          [|by destruct Hrolep..].
        destruct (producer_can_move _ _ p pt Hs Hmu Hrp Hplt)
          as (mv & e' & evs' & Hadv & Hmv).
        exists mv, e', evs'. split; [done|]. by destruct Hmv as [->| ->].
      * (* an element is in the buffer: an unsuspended consumer takes it *)
        apply size_non_empty_iff in Hsz. apply set_choose in Hsz as [c Hc'].
        destruct (HA c Hc') as [Htk Hncv]. pose proof (Hm c) as Hmc.
        exists (Queue (Step c)). simpl. unfold step, acquire.
        destruct (threads (points e) c) eqn:Hpcc; try done; simpl in Hmc;
          try (specialize (Hmc eq_refl); congruence).
        -- rewrite Hmu. eauto.
        -- rewrite decide_False, Hmu by done. eauto.
  - destruct Hrole as [Hrp Hrc]. unfold producers, consumers in *.
    rewrite elem_of_seq in Hrp, Hrc. lia.
Qed.


(** X12, [execute_monitor] cannot deadlock.  When
    [threads_per_type * points_per_thread] fits a [uint64_t], then in
    every state of every interleaving in which some thread cannot be joined
    yet, some thread can execute its next statement, without relying on
    a spurious wake-up. *)
Theorem monitor_never_deadlocks sched e evs (pt : T) :
  (Z.of_nat N * Z.of_nat M < 2 ^ 64)%Z →
  play inside N M sched start = Some (e, evs) →
  ¬ all_joined N M e →
  ∃ mv e' evs',
    advance inside N M mv e = Some (e', evs')
    ∧ ∀ w, mv ≠ Queue (Spurious w).
Proof.
  intros Hfits Hplay Hnot.
  pose proof (play_sound _ _ _ [] _ Hfits start_sound Hplay) as Hs.
  simpl in Hs. by eapply unfinished_can_move.
Qed.

(** *** Termination of [execute_monitor] *)

Lemma step_waiters t (s s' : state (T:=T)) evs :
  step t s = Some (s', evs) →
  (∀ t', t' ≠ t → t' ∈ m_cv s' ↔ t' ∈ m_cv s)
  ∧ (threads s t = PopWait → t ∉ m_cv s)
  ∧ (threads s' t = PopWait → t ∈ m_cv s').
Proof.
  intros Hstep. unfold step, acquire, release in Hstep.
  destruct (threads s t) eqn:Ht; simpl in *;
    repeat case_match; simplify_eq; simpl; rewrite ?fn_lookup_insert.
  all: split; [intros t' Hne|split; try done].
  all: try done.
  - rewrite elem_of_union, elem_of_singleton.
    split; [intros [?|?]; [congruence|done]|by right].
  - intros _. apply suspended_self.
Qed.

Lemma weight_same e e' t :
  threads (points e') t = threads (points e) t →
  loop_var e' t = loop_var e t → popped e' t = popped e t →
  (t ∈ m_cv (points e') ↔ t ∈ m_cv (points e)) →
  weight M e' t = weight M e t.
Proof.
  intros Hth Hlv Hpp Hcv. unfold weight. rewrite Hth, Hlv, Hpp.
  destruct (threads (points e) t); try done. f_equal. by apply decide_ext.
Qed.

Lemma worker_listed t : role_of N t ≠ None → t ∈ all_threads N.
Proof.
  unfold role_of, all_threads. rewrite elem_of_seq.
  repeat case_decide; [lia|lia|done].
Qed.

Lemma measure_one e e' t :
  (∀ t', t' ≠ t → weight M e' t' = weight M e t') →
  t ∈ all_threads N → weight M e' t < weight M e t →
  measure N M e' < measure N M e.
Proof.
  intros Hsame Hin Hlt. unfold measure.
  pose proof (sum_list_update (weight M e) (weight M e') (all_threads N) t
                (NoDup_seq _ _) Hsame) as Hsum.
  rewrite !decide_True in Hsum by done. lia.
Qed.

Lemma measure_two e e' t w :
  t ≠ w →
  (∀ t', t' ≠ t → t' ≠ w → weight M e' t' = weight M e t') →
  t ∈ all_threads N → w ∈ all_threads N →
  weight M e' t + weight M e' w < weight M e t + weight M e w →
  measure N M e' < measure N M e.
Proof.
  intros Hne Hsame Ht Hw Hlt. unfold measure.
  set (h := λ t', if decide (t' = w) then weight M e w else weight M e' t').
  pose proof (sum_list_update (weight M e) h (all_threads N) t
                (NoDup_seq _ _)) as Hsum1.
  pose proof (sum_list_update h (weight M e') (all_threads N) w
                (NoDup_seq _ _)) as Hsum2.
  rewrite !decide_True in Hsum1 by done.
  rewrite !decide_True in Hsum2 by done.
  assert (h t = weight M e' t) as Hht.
  { unfold h. by rewrite decide_False. }
  assert (h w = weight M e w) as Hhw.
  { unfold h. by rewrite decide_True. }
  rewrite Hht in Hsum1. rewrite Hhw in Hsum2.
  assert (∀ t', t' ≠ t → h t' = weight M e t') as Hs1.
  { intros t' Ht'. unfold h. case_decide; [by subst|by apply Hsame]. }
  assert (∀ t', t' ≠ w → weight M e' t' = h t') as Hs2.
  { intros t' Ht'. unfold h. by rewrite decide_False. }
  specialize (Hsum1 Hs1). specialize (Hsum2 Hs2). lia.
Qed.

(** Every move other than a spurious wake-up uses up some of the work that
    is left. *)
Lemma advance_measure mv e e' evs evs' :
  sound inside N M evs e → advance inside N M mv e = Some (e', evs') →
  (∀ w, mv ≠ Queue (Spurious w)) →
  measure N M e' < measure N M e.
Proof.
  intros Hs Hadv Hmv.
  pose proof Hs as [Hq Hsh _ _ _ _].
  pose proof (reachable_inv _ _ Hq) as Hi.
  destruct mv as [a|t]; simpl in Hadv.
  - destruct (allowed N M a e) eqn:Hal; [|done].
    destruct (perform a (points e)) as [[s' evs1]|] eqn:Hp; simplify_eq.
    destruct a as [t m|t|t w|w]; [| | |by destruct (Hmv w)].
    + simpl in Hp, Hal.
      pose proof (Hsh t) as Hsht. unfold shape in Hsht.
      destruct (threads (points e) t) eqn:Ht; simplify_eq. simpl.
      apply (measure_one _ _ t).
      * intros t' Hne. apply weight_same; simpl; try done.
        by rewrite fn_lookup_insert_ne.
      * apply worker_listed. by destruct (role_of N t).
      * unfold weight. simpl. rewrite fn_lookup_insert, Ht.
        destruct (role_of N t) as [[]|]; destruct m; try done.
        -- destruct Hsht as [-> _]. apply bool_decide_eq_true in Hal.
           simpl. lia.
        -- destruct (popped e t); [done|].
           apply bool_decide_eq_true in Hal. simpl. lia.
    + simpl in Hp. clear Hal.
      destruct (step_moves _ _ _ _ Hi Hp) as [Hmoves Hoth].
      destruct (step_waiters _ _ _ _ Hp) as (Hcv & Hbefore & Hafter).
      pose proof (Hsh t) as Hsht. unfold shape in Hsht.
      assert (role_of N t ≠ None) as Hrole.
      { intros Hr. rewrite Hr in Hsht. destruct Hsht as (Hidle & _).
        rewrite Hidle in Hmoves. inversion Hmoves. }
      remember (threads (points e) t) as p eqn:Hp1.
      remember (threads s' t) as p' eqn:Hp2.
      destruct Hmoves; simpl.
      all: destruct (role_of N t) as [[]|] eqn:Hr;
        try (by destruct Hsht); try (destruct Hsht; congruence).
      all: apply (measure_one _ _ t);
        [|apply worker_listed; congruence|].
      all: try (intros t' Hne; apply weight_same; simpl;
                rewrite ?fn_lookup_insert_ne by done; auto; fail).
      all: unfold weight; simpl;
        rewrite <- ?Hp1, <- ?Hp2, ?fn_lookup_insert.
      all: try (destruct Hsht as [Hsp Hsl]; rewrite ?Hsp).
      all: try lia.
      * rewrite decide_True by auto. lia.
      * rewrite decide_False by auto. lia.
    + clear Hal. destruct (notify_moves _ _ _ _ _ Hp) as [_ Hoth].
      simpl in Hp.
      destruct (threads (points e) t) eqn:Ht; try done.
      destruct (decide (w ∈ m_cv (points e))) as [Hw|]; simplify_eq.
      pose proof (inv_cv _ Hi w Hw) as Htw.
      assert (t ≠ w) as Hne by congruence.
      pose proof (Hsh t) as Hsht. pose proof (Hsh w) as Hshw.
      unfold shape in Hsht, Hshw. rewrite Ht in Hsht. rewrite Htw in Hshw.
      simpl. apply (measure_two _ _ t w); [done| | | |].
      * intros t' Ht' Hw'. apply weight_same; simpl; try done.
        -- by rewrite fn_lookup_insert_ne.
        -- rewrite elem_of_difference, elem_of_singleton.
           split; [by intros [? _]|by split].
      * apply worker_listed. destruct (role_of N t) as [[]|]; try done.
        by destruct Hsht.
      * apply worker_listed. destruct (role_of N w) as [[]|]; try done;
          by destruct Hshw.
      * unfold weight. simpl.
        rewrite fn_lookup_insert, fn_lookup_insert_ne, Ht, Htw by done.
        rewrite (decide_True _ _ Hw).
        rewrite (decide_False _ _ (unblocked_gone w (m_cv (points e)))).
        destruct (role_of N t) as [[]|]; try done; try (by destruct Hsht).
        destruct (role_of N w) as [[]|]; try done; try (by destruct Hshw).
        destruct Hsht as [_ Hlt]. destruct Hshw as [_ Hlw]. lia.
  - destruct (popped e t) as [pt|] eqn:Hpp; simplify_eq.
    pose proof (Hsh t) as Hsht. unfold shape in Hsht.
    destruct (role_of N t) as [[]|] eqn:Hr;
      [destruct Hsht; congruence| |destruct Hsht as (_ & _ & ?); congruence].
    destruct (threads (points e) t) eqn:Ht; try done;
      try (destruct Hsht; congruence). rewrite Hpp in Hsht.
    apply (measure_one _ _ t).
    + intros t' Hne. apply weight_same; simpl; try done;
        by rewrite fn_lookup_insert_ne.
    + apply worker_listed. by rewrite Hr.
    + unfold weight. simpl. rewrite Ht, Hpp, !fn_lookup_insert. lia.
Qed.

Lemma measure_start : measure N M (start (T:=T)) = 22 * N * M.
Proof.
  unfold measure. rewrite (sum_list_const _ _ (M * 11)).
  - unfold all_threads. rewrite length_seq. lia.
  - intros t _. unfold weight. simpl. lia.
Qed.

Lemma play_measure sched e e' evs evs' :
  (Z.of_nat N * Z.of_nat M < 2 ^ 64)%Z →
  sound inside N M evs e → play inside N M sched e = Some (e', evs') →
  notified_only sched →
  length sched + measure N M e' ≤ measure N M e.
Proof.
  intros Hfits. revert e evs evs'.
  induction sched as [|mv sched IH]; intros e evs evs' Hs Hplay Hno;
    simpl in Hplay.
  - simplify_eq. simpl. lia.
  - destruct (advance inside N M mv e) as [[e1 evs1]|] eqn:Ha; [|done].
    destruct (play inside N M sched e1) as [[e2 evs2]|] eqn:Hr; simplify_eq.
    apply list.Forall_cons in Hno as [Hmv Hno].
    pose proof (advance_measure _ _ _ _ _ Hs Ha Hmv) as Hlt.
    pose proof (advance_sound _ _ _ _ _ Hfits Hs Ha) as Hs1.
    specialize (IH _ _ _ Hs1 Hr Hno). simpl. lia.
Qed.

Lemma play_app sched1 sched2 e e1 e2 evs1 evs2 :
  play inside N M sched1 e = Some (e1, evs1) →
  play inside N M sched2 e1 = Some (e2, evs2) →
  play inside N M (sched1 ++ sched2) e = Some (e2, evs1 ++ evs2).
Proof.
  revert e evs1. induction sched1 as [|mv sched1 IH]; intros e evs1 H1 H2;
    simpl in *.
  - by simplify_eq.
  - destruct (advance inside N M mv e) as [[e3 evs3]|]; [|done].
    destruct (play inside N M sched1 e3) as [[e4 evs4]|] eqn:Hr;
      simplify_eq.
    rewrite (IH _ _ Hr H2). by rewrite app_assoc.
Qed.

(** From every state the threads can run on until all of them have left
    their loops. *)
Lemma can_finish n evs e (pt : T) :
  (Z.of_nat N * Z.of_nat M < 2 ^ 64)%Z →
  sound inside N M evs e → measure N M e < n →
  ∃ rest e' evs',
    notified_only rest
    ∧ play inside N M rest e = Some (e', evs')
    ∧ all_joined N M e'.
Proof.
  intros Hfits. revert evs e.
  induction n as [|n IH]; intros evs e Hs Hlt; [lia|].
  destruct (bounded_search (ended M e) (N + N)) as [Hall|(t & Ht & Hend)].
  { exists [], e, []. split; [apply Forall_nil_2|done]. }
  destruct (unfinished_can_move _ _ pt Hs) as (mv & e1 & evs1 & Ha & Hmv).
  { intros Hj. specialize (Hj t Ht). congruence. }
  pose proof (advance_measure _ _ _ _ _ Hs Ha Hmv) as Hdrop.
  pose proof (advance_sound _ _ _ _ _ Hfits Hs Ha) as Hs1.
  destruct (IH _ _ Hs1) as (rest & e' & evs' & Hno & Hplay & Hj); [lia|].
  exists (mv :: rest), e', (evs1 ++ evs').
  split; [by apply list.Forall_cons|]. split; [|done].
  simpl. by rewrite Ha, Hplay.
Qed.

(** X13, [execute_monitor] terminates.  When
    [threads_per_type * points_per_thread] fits a [uint64_t], an
    interleaving of the threads in which no waiter is unblocked spuriously
    has at most [22 * threads_per_type * points_per_thread] moves, whatever
    the scheduler does, and it can always be continued, again without
    spurious wake-ups, to a state in which every thread can be joined. *)
Theorem monitor_terminates sched e evs (pt : T) :
  (Z.of_nat N * Z.of_nat M < 2 ^ 64)%Z →
  play inside N M sched start = Some (e, evs) →
  notified_only sched →
  length sched ≤ 22 * N * M
  ∧ ∃ rest e' evs',
      notified_only rest
      ∧ play inside N M (sched ++ rest) start = Some (e', evs')
      ∧ all_joined N M e'.
Proof.
  intros Hfits Hplay Hno.
  pose proof (play_sound _ _ _ [] _ Hfits start_sound Hplay) as Hs.
  simpl in Hs.
  pose proof (play_measure _ _ _ [] _ Hfits start_sound Hplay Hno) as Hlen.
  rewrite measure_start in Hlen. split; [lia|].
  destruct (can_finish (S (measure N M e)) _ _ pt Hfits Hs)
    as (rest & e' & evs' & Hno' & Hplay' & Hj); [lia|].
  exists rest, e', (evs ++ evs'). split; [done|]. split; [|done].
  by eapply play_app.
Qed.

(** A schedule of the experiment that can be played to its end. *)
Lemma play_ending sched :
  is_Some (play inside N M sched start) →
  play inside N M sched start
  = Some (ending inside N M sched, record inside N M sched).
Proof.
  intros [[e evs] Hplay]. unfold ending, record. by rewrite Hplay.
Qed.
End experiment_facts.

(** * The benchmark on concrete runs *)

Section benchmark_concrete.
Import Benchmark Trial.

(** [sequential_counts_hits] on four samples of which the even ones hit. *)
Lemma sequential_counts_hits_witness :
  execute_sequential Nat.even 4 = (2%Z, 4%Z)
  ∧ (0 ≤ (execute_sequential Nat.even 4).1
       ≤ (execute_sequential Nat.even 4).2)%Z.
Proof. apply (sequential_counts_hits Nat.even 4). reflexivity. Defined.


(** [accumulate_truncates] below and above the largest [int], and on a sum
    of 2^32 + 5, of which only 5 is left. *)
Lemma accumulate_truncates_witness :
  uint64 (accumulate [1; 2; 3]%Z) = 6%Z
  ∧ uint64 (accumulate [2147483647; 1]%Z) = 18446744071562067968%Z
  ∧ uint64 (accumulate [4294967296; 5]%Z) ≠ sum_counts [4294967296; 5]%Z.
Proof.
  split; [|split].
  - destruct (accumulate_truncates [1; 2; 3]%Z) as (_ & Hexact & _).
    apply Hexact. vm_compute. by split.
  - destruct (accumulate_truncates [2147483647; 1]%Z)
      as (_ & _ & Hlarge & _).
    apply Hlarge. vm_compute. by split.
  - destruct (accumulate_truncates [4294967296; 5]%Z)
      as (_ & _ & _ & _ & Hwrong).
    apply Hwrong. vm_compute. by split.
Defined.

(** [parallel_report_exact] for the same two workers. *)
Lemma parallel_report_exact_witness :
  report_parallel 2 2 two_workers = (2%Z, 4%Z) ∧ (0 ≤ 2 ≤ 4)%Z.
Proof.
  apply (parallel_report_exact hit2 2 2 [0; 1; 1; 0] two_workers).
  - reflexivity.
  - reflexivity.
  - repeat constructor.
Defined.

(** [main_same_workload] on a machine with 12 hardware threads. *)
Lemma main_same_workload_witness :
  let c := main 12 in
  ((monitor_threads_per_type c * monitor_points_per_thread c = 393216
    ∧ sequential_total_points c = 393216
    ∧ parallel_num_threads c * parallel_points_per_thread c = 393216
    ∧ 393216 < 2 ^ 64
    ∧ parallel_num_threads c = 2 * monitor_threads_per_type c
    ∧ parallel_num_threads c ≤ 12
    ∧ (12 < 2 → sequential_total_points c = 0)
    ∧ (12 < 65536 →
       parallel_num_threads c * parallel_points_per_thread c < 2 ^ 31))%Z).
Proof. apply (main_same_workload 12). by vm_compute. Defined.

(** [monitor_counters_ordered] while the consumer holds the first point. *)
Lemma monitor_counters_ordered_witness :
  let sched := take 13 whole_run in
  let e := ending below5 1 2 sched in
  let evs := record below5 1 2 sched in
  (0 ≤ in_circle e ≤ Z.of_nat (hits_in below5 (removed evs)))%Z
  ∧ hits_in below5 (removed evs) ≤ length (removed evs)
  ∧ length (removed evs) ≤ length (inserted evs)
  ∧ (Z.of_nat (length (inserted evs)) ≤ 1 * 2)%Z.
Proof.
  apply (monitor_counters_ordered below5 1 2 (take 13 whole_run));
    [reflexivity|].
  apply play_ending. vm_compute. eexists. reflexivity.
Defined.

(** [monitor_result] at the end of the whole run: of the points 3 and 8
    one is inside. *)
Lemma monitor_result_witness :
  let e := ending below5 1 2 whole_run in
  let evs := record below5 1 2 whole_run in
  length (inserted evs) = 2
  ∧ removed evs = inserted evs
  ∧ m_queue (points e) = []
  ∧ report_monitor 1 2 e = (1%Z, 2%Z).
Proof.
  apply (monitor_result below5 1 2 whole_run);
    [reflexivity | apply play_ending; vm_compute; eexists; reflexivity |].
  intros t Ht. destruct t as [|[|t]]; [reflexivity..|lia].
Defined.

(** [monitor_never_deadlocks] while the consumer is suspended and the
    producer has not started. *)
Lemma monitor_never_deadlocks_witness :
  let e := ending below5 1 2 consumer_first in
  ∃ mv e' evs',
    advance below5 1 2 mv e = Some (e', evs')
    ∧ ∀ w, mv ≠ Queue (Spurious w).
Proof.
  apply (monitor_never_deadlocks below5 1 2 consumer_first
           (ending below5 1 2 consumer_first)
           (record below5 1 2 consumer_first) 0);
    [reflexivity | apply play_ending; vm_compute; eexists; reflexivity |].
  intros Hj. specialize (Hj 0). vm_compute in Hj.
  assert (false = true) as Habs; [|discriminate Habs].
  apply Hj. repeat constructor.
Defined.
(** [monitor_terminates] while the consumer is suspended and the producer
    has not started: three moves were made, and the run can be completed. *)
Lemma monitor_terminates_witness :
  length consumer_first ≤ 22 * 1 * 2
  ∧ ∃ rest e' evs',
      notified_only rest
      ∧ play below5 1 2 (consumer_first ++ rest) start = Some (e', evs')
      ∧ all_joined 1 2 e'.
Proof.
  apply (monitor_terminates below5 1 2 consumer_first
           (ending below5 1 2 consumer_first)
           (record below5 1 2 consumer_first) 0);
    [reflexivity | apply play_ending; vm_compute; eexists; reflexivity |].
  unfold notified_only, consumer_first.
  repeat (constructor; [intros w Heq; discriminate Heq|]). constructor.
Defined.
End benchmark_concrete.
